(** * pacextractor: a shallow embedding of [pacextractor.c]

    The development follows the C source function by function.  The data
    model is LP64 (x86-64 Linux): [int] and [int32_t] have 32 bits,
    [size_t], [ssize_t], [off_t] and pointers have 64 bits.  Machine
    integers are values of [Z] with the wrap-around written out; bytes are
    values of [Z] in [0, 256).

    The operating system is modelled by an explicit [world]: a file system
    keyed by literal path strings, the cursor of the container descriptor,
    the space left on the output device, the largest request [malloc] can
    serve, and the trace of calls and prints performed so far.  A C function
    becomes a state-passing program whose outcome is a normal return, a call
    to [exit], or undefined behaviour. *)

From Stdlib Require Import ZArith Lia List String Ascii Bool Sorted.
From stdpp Require Import base option list list_numbers strings gmap.

Local Open Scope Z_scope.

(** ** Machine integers *)

Module Int.

Definition two32 : Z := 4294967296.
Definition two64 : Z := 18446744073709551616.

(** Conversion to [uint32_t]. *)
Definition u32 (z : Z) : Z := z mod two32.

(** Conversion to [int32_t] / [int] (two's complement). *)
Definition i32 (z : Z) : Z :=
  let m := z mod two32 in if m <? 2147483648 then m else m - two32.

(** Conversion to [size_t]. *)
Definition usize (z : Z) : Z := z mod two64.

(** Conversion to [int16_t]. *)
Definition i16 (z : Z) : Z :=
  let m := z mod 65536 in if m <? 32768 then m else m - 65536.

Definition PTRDIFF_MAX : Z := 9223372036854775807.

End Int.

Import Int.

(** ** Byte buffers and little-endian loads *)

(** A stored byte, as a value in [0, 256). *)
Definition byte (b : Z) : Z := b mod 256.

(** The bytes of [buf] from offset [off] to its end. *)
Definition from_offset (buf : list Z) (off : Z) : list Z :=
  drop (Z.to_nat off) buf.

(** A 32-bit little-endian load at byte offset [off]; [None] when the four
    bytes are not all inside the buffer. *)
Definition load_u32 (buf : list Z) (off : Z) : option Z :=
  match from_offset buf off with
  | b0 :: b1 :: b2 :: b3 :: _ =>
      Some (byte b0 + 256 * byte b1 + 65536 * byte b2 + 16777216 * byte b3)
  | _ => None
  end.

Definition load_i32 (buf : list Z) (off : Z) : option Z :=
  i32 <$> load_u32 buf off.

(** The [int16_t] code units that lie wholly inside a byte sequence. *)
Fixpoint units (bytes : list Z) : list Z :=
  match bytes with
  | b0 :: b1 :: rest => i16 (byte b0 + 256 * byte b1) :: units rest
  | _ => []
  end.

(** The code units reachable from the field at byte offset [off] without
    leaving the object [buf]. *)
Definition field_units (buf : list Z) (off : Z) : list Z :=
  units (from_offset buf off).

(** ** Structure layouts *)

(** [sizeof(PacHeader)] and the offsets of the fields the program uses. *)
Definition sizeof_PacHeader : Z := 1220.
Definition off_firmwareName : Z := 564.
Definition off_partitionCount : Z := 1076.
Definition off_partitionsListStart : Z := 1080.

(** [sizeof(PartitionHeader)] (the flexible array member adds nothing) and
    its field offsets. *)
Definition sizeof_PartitionHeader : Z := 1568.
Definition off_length : Z := 0.
Definition off_partitionName : Z := 4.
Definition off_fileName : Z := 516.
Definition off_partitionSize : Z := 1540.
Definition off_partitionAddrInPac : Z := 1552.

Definition sizeof_pointer : Z := 8.
Definition BUFFER_SIZE : Z := 256 * 1024.
Definition EXIT_SUCCESS : Z := 0.
Definition EXIT_FAILURE : Z := 1.
Definition ENOENT : Z := 2.
Definition ENOTEMPTY : Z := 39.
Definition VERSION : string := "1.1.0".

(** ** getString *)

(** The loop of [getString].  [baseString] is the sequence of code units
    from the source pointer to the end of the object it points into;
    [resString] is the destination pointer as an offset from the start of
    the destination buffer; [out] collects the bytes stored so far.  Running
    off the end of the source object is undefined behaviour ([None]). *)
Fixpoint getString_loop (baseString : list Z) (resString : Z) (out : list Z)
  : option (list Z) :=
  match baseString with
  | [] => None
  | c :: baseString' =>
      if c =? 0 then Some (out ++ [0])
      else
        let out := out ++ [Z.land c 255] in
        let resString := resString + 1 in
        if resString - resString >? 255 then Some (out ++ [0])
        else getString_loop baseString' resString out
  end.

(** [getString]: the bytes stored through [resString], terminator
    included.  A null [baseString] is [None]; the destination is never null
    at any call site. *)
Definition getString (baseString : option (list Z)) : option (list Z) :=
  match baseString with
  | None => Some [0]
  | Some us => getString_loop us 0 []
  end.

(** The C string left in the destination, as [printf] and [snprintf] read
    it through [%s]: the stored bytes before the first zero byte.  (A
    non-zero code unit whose low byte is zero stores such a byte before
    the terminator.) *)
Fixpoint c_string (stored : list Z) : list Z :=
  match stored with
  | [] => []
  | b :: rest => if b =? 0 then [] else b :: c_string rest
  end.

Definition ascii_of_byte (b : Z) : ascii := ascii_of_N (Z.to_N (byte b)).

Definition string_of_bytes (l : list Z) : string :=
  fold_right (fun b s => String (ascii_of_byte b) s) EmptyString l.

(** Decoding a field into a destination array of [cap] bytes: [None] when
    the source has no terminator inside its object or when more than [cap]
    bytes are stored (both undefined behaviour in C). *)
Definition decode_field (buf : list Z) (off : Z) (cap : Z) : option string :=
  match getString (Some (field_units buf off)) with
  | Some stored =>
      if Z.of_nat (length stored) <=? cap
      then Some (string_of_bytes (c_string stored))
      else None
  | None => None
  end.

(** ** The operating-system model *)

(** A regular file: ordinary files are byte lists; [Sparse] stands for a
    file given by its size and the byte at each offset, which is how files
    too large to enumerate are written down. *)
Inductive file :=
| Bytes (l : list Z)
| Sparse (size : Z) (byte_at : Z -> Z).

Definition fsize (f : file) : Z :=
  match f with
  | Bytes l => Z.of_nat (length l)
  | Sparse size _ => Z.max 0 size
  end.

Definition fbyte (f : file) (i : Z) : Z :=
  match f with
  | Bytes l => byte (nth (Z.to_nat i) l 0)
  | Sparse _ byte_at => byte (byte_at i)
  end.

(** The [n] bytes of [f] starting at offset [pos]. *)
Definition pread (f : file) (pos n : Z) : list Z :=
  fbyte f <$> seqZ pos n.

Definition fappend (f : file) (data : list Z) : file :=
  match f with
  | Bytes l => Bytes (l ++ data)
  | Sparse size byte_at =>
      let size := Z.max 0 size in
      Sparse (size + Z.of_nat (length data))
             (fun i => if i <? size then byte_at i
                       else nth (Z.to_nat (i - size)) data 0)
  end.

Inductive node :=
| Dir
| Reg (f : file).

(** Arguments of the [printf] family. *)
Inductive parg :=
| PStr (s : string)
| PUint (n : Z).

(** Observable actions, in program order. *)
Inductive event :=
| EPrintf (fmt : string) (args : list parg)
| EFprintf_stderr (fmt : string) (args : list parg)
| EPerror (msg : string)
| ELseek (off : Z)
| ERead (n got : Z)
| EMkdir (path : string)
| ERemove (path : string)
| ECreat (path : string)
| EWrite (n put : Z)
| EClose
| EProgress (completed total : Z).

Record world := World {
  w_fs : gmap string node;   (* the file system *)
  w_pos : Z;                 (* cursor of the container descriptor *)
  w_free : Z;                (* bytes the output device still accepts *)
  w_heap : Z;                (* largest request malloc can serve *)
  w_trace : list event       (* actions so far *)
}.

Definition set_fs (fs : gmap string node) (w : world) : world :=
  World fs (w_pos w) (w_free w) (w_heap w) (w_trace w).
Definition set_pos (pos : Z) (w : world) : world :=
  World (w_fs w) pos (w_free w) (w_heap w) (w_trace w).
Definition set_free (free : Z) (w : world) : world :=
  World (w_fs w) (w_pos w) free (w_heap w) (w_trace w).
Definition log (e : event) (w : world) : world :=
  World (w_fs w) (w_pos w) (w_free w) (w_heap w) (w_trace w ++ [e]).

(** How a C computation ends: it returns a value, calls [exit], has
    undefined behaviour, or (for the fuel-bounded loop only) runs out of
    fuel. *)
Inductive outcome (A : Type) :=
| Ret (a : A)
| Exit (status : Z)
| Undef
| Starved.
Arguments Ret {A} a.
Arguments Exit {A} status.
Arguments Undef {A}.
Arguments Starved {A}.

Definition prog (A : Type) : Type := world -> outcome A * world.

Definition ret {A} (a : A) : prog A := fun w => (Ret a, w).

Definition bind {A B} (m : prog A) (k : A -> prog B) : prog B :=
  fun w =>
    match m w with
    | (Ret a, w') => k a w'
    | (Exit status, w') => (Exit status, w')
    | (Undef, w') => (Undef, w')
    | (Starved, w') => (Starved, w')
    end.

Definition exit {A} (status : Z) : prog A := fun w => (Exit status, w).
Definition undefined {A} : prog A := fun w => (Undef, w).
Definition emit (e : event) : prog unit := fun w => (Ret tt, log e w).

(** A partial C operation: [None] is undefined behaviour. *)
Definition defined {A} (o : option A) : prog A :=
  match o with
  | Some a => ret a
  | None => undefined
  end.

Declare Scope prog_scope.
Delimit Scope prog_scope with prog.
Notation "x <- m ;; k" := (bind m (fun x => k))
  (at level 100, m at next level, right associativity) : prog_scope.
Notation "m ;;; k" := (bind m (fun _ => k))
  (at level 100, right associativity) : prog_scope.
Local Open Scope prog_scope.

(** *** System calls *)

(** [read(2)] transfers at most this many bytes in one call on Linux. *)
Definition MAX_RW_COUNT : Z := 2147479552.

(** [lseek(fd, off, SEEK_SET)] on the container. *)
Definition sys_lseek (off : Z) : prog unit :=
  fun w => (Ret tt, log (ELseek off) (set_pos off w)).

(** [read(fd, buf, n)] on the container [fd]: the return value and the
    bytes placed in the buffer.  A read is short exactly when the file
    ends before [n] bytes (or [n] exceeds the per-call limit). *)
Definition sys_read (fd : file) (n : Z) : prog (Z * list Z) :=
  fun w =>
    let avail := Z.max 0 (fsize fd - w_pos w) in
    let got := Z.min n (Z.min MAX_RW_COUNT avail) in
    (Ret (got, pread fd (w_pos w) got),
     log (ERead n got) (set_pos (w_pos w + got) w)).

(** [write(fd_new, buf, n)] on the destination opened at [path]: all [n]
    bytes when the device has room, the bytes that fit when it has room for
    some, [-1] when it has none. *)
Definition sys_write (path : string) (buf : list Z) (n : Z) : prog Z :=
  fun w =>
    if n <=? w_free w then
      let data := take (Z.to_nat n) buf in
      let fs := alter (fun nd => match nd with
                                 | Reg f => Reg (fappend f data)
                                 | Dir => Dir
                                 end) path (w_fs w) in
      (Ret n, log (EWrite n n) (set_free (w_free w - n) (set_fs fs w)))
    else if 0 <? w_free w then
      let put := w_free w in
      let data := take (Z.to_nat put) buf in
      let fs := alter (fun nd => match nd with
                                 | Reg f => Reg (fappend f data)
                                 | Dir => Dir
                                 end) path (w_fs w) in
      (Ret put, log (EWrite n put) (set_free 0 (set_fs fs w)))
    else (Ret (-1), log (EWrite n (-1)) w).

(** [malloc(n)], glibc behaviour: a request above [PTRDIFF_MAX] fails, a
    request of zero bytes succeeds, anything else depends on the memory
    available.  The result is whether the pointer is non-null. *)
Definition sys_malloc (n : Z) : prog bool :=
  fun w => (Ret ((n <=? PTRDIFF_MAX) && ((n =? 0) || (n <=? w_heap w))), w).

(** The directory part of a path: everything before its last slash. *)
Definition slash : ascii := "/"%char.

Fixpoint dirname_rev (r : list ascii) : option (list ascii) :=
  match r with
  | [] => None
  | c :: r' => if Ascii.eqb c slash then Some r' else dirname_rev r'
  end.

Definition dirname (p : string) : option string :=
  (fun r => string_of_list_ascii (rev r))
    <$> dirname_rev (rev (list_ascii_of_string p)).

(** Whether the directory in which [p] would be created exists.  A path
    without a slash lives in the working directory, and the empty directory
    part is the root. *)
Definition parent_exists (fs : gmap string node) (p : string) : bool :=
  match dirname p with
  | None => true
  | Some d =>
      if String.eqb d "" then true
      else match fs !! d with
           | Some Dir => true
           | _ => false
           end
  end.

(** Paths.  The file system is keyed by path names, one key for each file,
    and the calls below look a path up as it is written: paths are not
    resolved.  This is the behaviour of the system calls for the paths that
    name files one to one, the relative paths whose components are neither
    empty nor [.] nor [..] ([canonical] below), in a file system without
    links.  For other spellings ([.], [..], doubled or trailing slashes)
    the calls treat the path as a name of its own; what is proved about the
    file a path denotes is therefore stated for canonical paths. *)

(** [access(path, F_OK) == 0]: whether the path names an entry. *)
Definition sys_access (path : string) : prog bool :=
  fun w => (Ret (negb (String.eqb path "") && bool_decide (is_Some (w_fs w !! path))), w).

(** [mkdir(path, 0777) == 0]. *)
Definition sys_mkdir (path : string) : prog bool :=
  fun w =>
    if negb (String.eqb path "")
       && bool_decide (w_fs w !! path = None)
       && parent_exists (w_fs w) path
    then (Ret true, log (EMkdir path) (set_fs (<[path := Dir]> (w_fs w)) w))
    else (Ret false, log (EMkdir path) w).

(** Whether nothing in the file system lies below directory [d]. *)
Definition dir_empty (fs : gmap string node) (d : string) : bool :=
  bool_decide (map_Forall (fun k _ => String.prefix (d ++ "/") k = false) fs).

(** [remove(path)]: the return value and [errno].  A regular file is
    unlinked, a directory is removed when it is empty ([ENOTEMPTY]
    otherwise), and a name without entry fails with [ENOENT]. *)
Definition sys_remove (path : string) : prog (Z * Z) :=
  fun w =>
    match w_fs w !! path with
    | Some (Reg _) =>
        (Ret (0, 0), log (ERemove path) (set_fs (delete path (w_fs w)) w))
    | Some Dir =>
        if dir_empty (w_fs w) path
        then (Ret (0, 0), log (ERemove path) (set_fs (delete path (w_fs w)) w))
        else (Ret (-1, ENOTEMPTY), log (ERemove path) w)
    | None => (Ret (-1, ENOENT), log (ERemove path) w)
    end.

(** Whether a path ends with a slash. *)
Fixpoint ends_with_slash (p : string) : bool :=
  match p with
  | EmptyString => false
  | String c EmptyString => Ascii.eqb c slash
  | String _ p' => ends_with_slash p'
  end.

(** [open(path, O_WRONLY | O_CREAT | O_TRUNC, 0666) != -1].  A path that
    ends with a slash names a directory and cannot be opened for writing
    ([EISDIR]). *)
Definition sys_creat (path : string) : prog bool :=
  fun w =>
    match w_fs w !! path with
    | Some Dir => (Ret false, log (ECreat path) w)
    | _ =>
        if parent_exists (w_fs w) path && negb (ends_with_slash path)
        then (Ret true,
              log (ECreat path) (set_fs (<[path := Reg (Bytes [])]> (w_fs w)) w))
        else (Ret false, log (ECreat path) w)
    end.

(** [open(path, O_RDONLY)] of a regular file; the descriptor is modelled
    by the file it refers to, and its cursor starts at 0. *)
Definition sys_open (path : string) : prog (option file) :=
  fun w =>
    match w_fs w !! path with
    | Some (Reg f) => (Ret (Some f), set_pos 0 w)
    | _ => (Ret None, w)
    end.

Definition sys_close : prog unit := emit EClose.

(** ** The program *)

Definition printUsage : prog unit :=
  emit (EPrintf "Usage: pacextractor -e <firmware name>.pac -o <output path>\n" []) ;;;
  emit (EPrintf "Options:\n" []) ;;;
  emit (EPrintf "  -h               Show this help message and exit\n" []) ;;;
  emit (EPrintf "  -v               Show version information and exit\n" []).

Definition printUsageAndExit {A} : prog A :=
  printUsage ;;; exit EXIT_FAILURE.

Definition handleOpenFileError {A} (fileName : string) : prog A :=
  emit (EPerror fileName) ;;; exit EXIT_FAILURE.

Definition openFirmwareFile (filePath : string) : prog file :=
  fd <- sys_open filePath ;;
  match fd with
  | None => handleOpenFileError filePath
  | Some f => ret f
  end.

(** One step of [createOutputDirectory]: make [temp] unless it exists. *)
Definition ensure_directory (temp : string) : prog unit :=
  present <- sys_access temp ;;
  if present then ret tt
  else
    made <- sys_mkdir temp ;;
    if made then ret tt
    else emit (EPerror "Failed to create output directory") ;;; exit EXIT_FAILURE.

(** The [for] loop of [createOutputDirectory]: [done] is the part of
    [temp] before the cursor [p], [rest] the part from [p] on. *)
Fixpoint createOutputDirectory_loop (done rest : string) : prog unit :=
  match rest with
  | EmptyString => ret tt
  | String c rest' =>
      (if Ascii.eqb c slash then ensure_directory done else ret tt) ;;;
      createOutputDirectory_loop (done ++ String c EmptyString) rest'
  end.

(** [createOutputDirectory]; copying a path that does not fit [temp[768]]
    is undefined behaviour. *)
Definition createOutputDirectory (path : string) : prog unit :=
  if 768 <=? Z.of_nat (String.length path) then undefined
  else
    createOutputDirectory_loop "" path ;;;
    ensure_directory path.

(** [readPacHeader]: the [sizeof(PacHeader)] bytes of the header. *)
Definition readPacHeader (fd : file) : prog (list Z) :=
  r <- sys_read fd sizeof_PacHeader ;;
  if negb (fst r =? sizeof_PacHeader)
  then emit (EPerror "Error while reading PAC header") ;;; exit EXIT_FAILURE
  else ret (snd r).

(** [readPartitionHeader]: the allocated record (its [length] bytes) and
    the updated [*curPos]. *)
Definition readPartitionHeader (fd : file) (curPos : Z) : prog (list Z * Z) :=
  sys_lseek curPos ;;;
  r <- sys_read fd 4 ;;
  if negb (fst r =? 4)
  then emit (EPerror "Error while reading partition header length") ;;;
       exit EXIT_FAILURE
  else
    length <- defined (load_u32 (snd r) 0) ;;
    header <- sys_malloc length ;;
    if negb header
    then emit (EPerror "Memory allocation failed") ;;; exit EXIT_FAILURE
    else
      sys_lseek curPos ;;;
      r <- sys_read fd length ;;
      if negb (fst r =? length)
      then emit (EPerror "Error while reading partition header") ;;;
           exit EXIT_FAILURE
      else ret (snd r, u32 (curPos + length)).

(** [printProgressBar]: only its arguments are kept; the bar itself is
    floating-point formatting. *)
Definition printProgressBar (completed total : Z) : prog unit :=
  emit (EProgress completed total).

(** [snprintf(outputFilePath, 768, "%s/%s", outputPath, fileName)]. *)
Definition outputFilePath (outputPath fileName : string) : string :=
  substring 0 767 (outputPath ++ "/" ++ fileName).

(** The body of the [while (dataSizeLeft > 0)] loop of [extractPartition]:
    one iteration from the counters [(dataSizeLeft, dataSizeRead)] to their
    next values.  [path] names the file behind [fd_new]; [partitionSize]
    is [partHeader->partitionSize]. *)
Definition extractPartition_body (fd : file) (path : string) (partitionSize : Z)
    (counters : Z * Z) : prog (Z * Z) :=
  let dataSizeLeft := fst counters in
  let dataSizeRead := snd counters in
  let copyLength :=
    u32 (if dataSizeLeft >? BUFFER_SIZE then BUFFER_SIZE else dataSizeLeft) in
  r <- sys_read fd copyLength ;;
  if negb (fst r =? copyLength)
  then emit (EPerror "Error while reading partition data") ;;;
       sys_close ;;;
       exit EXIT_FAILURE
  else
    wb <- sys_write path (snd r) copyLength ;;
    if negb (wb =? copyLength)
    then emit (EPerror "Error while writing partition data") ;;;
         sys_close ;;;
         exit EXIT_FAILURE
    else
      let dataSizeLeft := u32 (dataSizeLeft - copyLength) in
      let dataSizeRead := u32 (dataSizeRead + copyLength) in
      printProgressBar dataSizeRead partitionSize ;;;
      ret (dataSizeLeft, dataSizeRead).

(** The loop itself, bounded by [fuel] iterations. *)
Fixpoint extractPartition_loop (fuel : nat) (fd : file) (path : string)
    (partitionSize : Z) (counters : Z * Z) : prog unit :=
  if fst counters >? 0 then
    match fuel with
    | O => fun w => (Starved, w)
    | S fuel' =>
        counters' <- extractPartition_body fd path partitionSize counters ;;
        extractPartition_loop fuel' fd path partitionSize counters'
    end
  else ret tt.

(** Iterations the loop can need: each one but the last moves
    [BUFFER_SIZE] bytes. *)
Definition loop_fuel (partitionSize : Z) : nat :=
  S (Z.to_nat (partitionSize / BUFFER_SIZE)).

Definition extractPartition (fd : file) (partHeader : list Z) (outputPath : string)
  : prog unit :=
  partitionSize <- defined (load_u32 partHeader off_partitionSize) ;;
  if partitionSize =? 0 then ret tt
  else
    partitionAddrInPac <- defined (load_u32 partHeader off_partitionAddrInPac) ;;
    sys_lseek partitionAddrInPac ;;;
    buffer <- sys_malloc BUFFER_SIZE ;;
    if negb buffer
    then emit (EPerror "Memory allocation failed") ;;; exit EXIT_FAILURE
    else
      fileName <- defined (decode_field partHeader off_fileName 512) ;;
      let path := outputFilePath outputPath fileName in
      r <- sys_remove path ;;
      if (fst r =? -1) && negb (snd r =? ENOENT)
      then emit (EPerror "Error removing existing output file") ;;;
           exit EXIT_FAILURE
      else
        fd_new <- sys_creat path ;;
        if negb fd_new
        then emit (EPerror "Error creating output file") ;;; exit EXIT_FAILURE
        else
          emit (EPrintf "Extracting to %s\n" [PStr path]) ;;;
          extractPartition_loop (loop_fuel partitionSize) fd path
            partitionSize (partitionSize, 0) ;;;
          emit (EPrintf "\n" []) ;;;
          sys_close.

(** The first [for] loop of [main]: [n] iterations remain, [curPos] is the
    cursor; the result is [partHeaders] in order. *)
Fixpoint readPartitionHeaders (n : nat) (fd : file) (curPos : Z)
  : prog (list (list Z)) :=
  match n with
  | O => ret []
  | S n' =>
      r <- readPartitionHeader fd curPos ;;
      let header := fst r in
      partitionName <- defined (decode_field header off_partitionName 256) ;;
      fileName <- defined (decode_field header off_fileName 512) ;;
      partitionSize <- defined (load_u32 header off_partitionSize) ;;
      emit (EPrintf "Partition name: %s\n\twith file name: %s\n\twith size %u\n"
              [PStr partitionName; PStr fileName; PUint partitionSize]) ;;;
      rest <- readPartitionHeaders n' fd (snd r) ;;
      ret (header :: rest)
  end.

(** The second [for] loop of [main]. *)
Fixpoint extractPartitions (fd : file) (partHeaders : list (list Z))
    (outputPath : string) : prog unit :=
  match partHeaders with
  | [] => ret tt
  | header :: rest =>
      extractPartition fd header outputPath ;;;
      extractPartitions fd rest outputPath
  end.

(** [argv[i]]; the program only indexes below [argc]. *)
Definition arg (argv : list string) (i : nat) : string := nth i argv "".

(** The [-e ... -o ...] branch of [main].  [fstat] on the descriptor just
    opened does not fail; [st.st_size] is [fsize fd]. *)
Definition extract_command (argv : list string) : prog Z :=
  fd <- openFirmwareFile (arg argv 2) ;;
  let firmwareSize := i32 (fsize fd) in
  if usize firmwareSize <? sizeof_PacHeader
  then emit (EFprintf_stderr "File %s is not a valid firmware\n" [PStr (arg argv 2)]) ;;;
       sys_close ;;;
       exit EXIT_FAILURE
  else
    let outputPath := arg argv 4 in
    createOutputDirectory outputPath ;;;
    pacHeader <- readPacHeader fd ;;
    firmwareName <- defined (decode_field pacHeader off_firmwareName 256) ;;
    emit (EPrintf "Firmware name: %s\n" [PStr firmwareName]) ;;;
    partitionsListStart <- defined (load_i32 pacHeader off_partitionsListStart) ;;
    partitionCount <- defined (load_i32 pacHeader off_partitionCount) ;;
    let curPos := u32 partitionsListStart in
    partHeaders <- sys_malloc (usize (usize partitionCount * sizeof_pointer)) ;;
    if negb partHeaders
    then emit (EPerror "Memory allocation failed for partition headers") ;;;
         sys_close ;;;
         exit EXIT_FAILURE
    else
      headers <- readPartitionHeaders (Z.to_nat partitionCount) fd curPos ;;
      extractPartitions fd headers outputPath ;;;
      sys_close ;;;
      ret EXIT_SUCCESS.

Definition main (argv : list string) : prog Z :=
  let argc := Z.of_nat (length argv) in
  if argc <? 5 then printUsageAndExit
  else if String.eqb (arg argv 1) "-h" then
    printUsage ;;; exit EXIT_SUCCESS
  else if String.eqb (arg argv 1) "-v" then
    emit (EPrintf "pacextractor version %s\n" [PStr VERSION]) ;;;
    exit EXIT_SUCCESS
  else if String.eqb (arg argv 1) "-e" && String.eqb (arg argv 3) "-o" then
    extract_command argv
  else printUsageAndExit.

(** ** Auxiliary definitions for the statements *)

(** What [printUsage] prints. *)
Definition usage_events : list event :=
  [ EPrintf "Usage: pacextractor -e <firmware name>.pac -o <output path>\n" [];
    EPrintf "Options:\n" [];
    EPrintf "  -h               Show this help message and exit\n" [];
    EPrintf "  -v               Show version information and exit\n" [] ].

(** Appending a list of events to the trace. *)
Definition logs (es : list event) (w : world) : world :=
  World (w_fs w) (w_pos w) (w_free w) (w_heap w) (w_trace w ++ es).

(** The size of the next chunk when [remaining] bytes are left. *)
Definition chunk (remaining : Z) : Z := Z.min remaining BUFFER_SIZE.

(** [chunked n cs]: [cs] cuts [n] bytes into chunks, each of them
    [min(remaining, 256 KiB)]. *)
Inductive chunked : Z -> list Z -> Prop :=
| chunked_nil : chunked 0 []
| chunked_cons remaining cs :
    0 < remaining ->
    chunked (remaining - chunk remaining) cs ->
    chunked remaining (chunk remaining :: cs).

(** The [read] calls of a trace, as (requested, returned). *)
Definition reads (evs : list event) : list (Z * Z) :=
  omap (fun e => match e with ERead n got => Some (n, got) | _ => None end) evs.

(** The [write] calls of a trace, as (requested, returned). *)
Definition writes (evs : list event) : list (Z * Z) :=
  omap (fun e => match e with EWrite n put => Some (n, put) | _ => None end) evs.

(** The progress reports of a trace, as (completed, total). *)
Definition reports (evs : list event) : list (Z * Z) :=
  omap (fun e => match e with EProgress c t => Some (c, t) | _ => None end) evs.

(** A [read] or [write] that transferred fewer bytes than requested. *)
Definition is_short (e : event) : bool :=
  match e with
  | ERead n got => got <? n
  | EWrite n put => put <? n
  | _ => false
  end.

(** The runs of the streaming loop from counters [(left, done)]: the
    outcome, the number of bytes that reached the destination, and the
    actions performed. *)
Inductive loop_run (total : Z) : Z -> Z -> outcome unit -> Z -> list event -> Prop :=
| run_end done :
    loop_run total 0 done (Ret tt) 0 []
| run_chunk left done o k evs :
    0 < left ->
    loop_run total (left - chunk left) (done + chunk left) o k evs ->
    loop_run total left done o (chunk left + k)
      (ERead (chunk left) (chunk left) :: EWrite (chunk left) (chunk left)
       :: EProgress (done + chunk left) total :: evs)
| run_short_read left done got :
    0 < left -> 0 <= got < chunk left ->
    loop_run total left done (Exit EXIT_FAILURE) 0
      [ERead (chunk left) got;
       EPerror "Error while reading partition data"; EClose]
| run_short_write left done put :
    0 < left -> -1 <= put < chunk left ->
    loop_run total left done (Exit EXIT_FAILURE) (Z.max 0 put)
      [ERead (chunk left) (chunk left); EWrite (chunk left) put;
       EPerror "Error while writing partition data"; EClose].

(** The loop invariant of [extractPartition] on the counters
    [(dataSizeLeft, dataSizeRead)]. *)
Definition loop_invariant (partitionSize : Z) (counters : Z * Z) : Prop :=
  snd counters + fst counters = partitionSize /\
  0 <= fst counters /\ 0 <= snd counters.

(** The [lseek] calls of a trace. *)
Definition seeks (evs : list event) : list Z :=
  omap (fun e => match e with ELseek off => Some off | _ => None end) evs.

(** [halted o o']: the computation stopped with [o] (an exit, undefined
    behaviour, or starvation), seen at another result type as [o']. *)
Definition halted {A B} (o : outcome A) (o' : outcome B) : Prop :=
  match o, o' with
  | Exit s, Exit s' => s = s'
  | Undef, Undef => True
  | Starved, Starved => True
  | _, _ => False
  end.

(** ** Concrete inputs *)

(** A partition record of [sizeof(PartitionHeader)] bytes whose
    [partitionName] field holds 256 code units 'A' with no terminator and
    whose [fileName] field, which follows it, is "BBBB". *)
Definition overlong_name_record : list Z :=
  [32; 6; 0; 0] ++ concat (repeat [65; 0] 256) ++ concat (repeat [66; 0] 4)
    ++ repeat 0 1044.

(** A world with nothing in the file system, ample room on the output
    device and ample memory. *)
Definition quiet_world : world :=
  World ∅ 0 1000000000 1000000000 [].

(** A partition record of the fixed size whose fields are all zero. *)
Definition zero_record : list Z := repeat 0 1568.

(** A world whose only file is a 100-byte [fw.pac]. *)
Definition short_container : file := Bytes (repeat 0 100).
Definition short_container_world : world :=
  World {[ "fw.pac"%string := Reg short_container ]} 0 1000000000 1000000000 [].

(** A record naming the file "a", with a 5-byte payload at offset 2. *)
Definition sample_record : list Z :=
  repeat 0 516 ++ [97; 0] ++ repeat 0 1022 ++ [5; 0; 0; 0]
    ++ repeat 0 8 ++ [2; 0; 0; 0] ++ repeat 0 12.

(** An 8-byte container, and a world whose output directory exists. *)
Definition sample_container : file := Bytes [10; 11; 12; 13; 14; 15; 16; 17].
Definition sample_world : world :=
  World {[ "out"%string := Dir ]} 0 1000000000 1000000000 [].
Definition sample_world_after : world :=
  snd (extractPartition sample_container sample_record "out" sample_world).

(** A world in which the destination [out/a] is open and empty and the
    output device has room for 3 more bytes. *)
Definition cramped_world : world :=
  World {[ "out/a"%string := Reg (Bytes []) ]} 2 3 1000000000 [].

(** A container of 4 GiB + 1900 bytes that is zero everywhere except for
    the length prefix 2000 of a partition record placed 100 bytes below
    the 4 GiB mark. *)
Definition huge_container : file :=
  Sparse (two32 + 1900)
    (fun i => if i =? 4294967196 then 208 else if i =? 4294967197 then 7 else 0).

(** A container that consists of one 8-byte partition record. *)
Definition stub_container : file := Bytes [8; 0; 0; 0; 1; 2; 3; 4].

(** A partition record of exactly [sizeof(PartitionHeader)] bytes with
    empty names and no payload, and a container made of two of them. *)
Definition plain_record : list Z := [32; 6; 0; 0] ++ repeat 0 1564.
Definition two_record_container : file := Bytes (plain_record ++ plain_record).

(** A container whose header announces [partitionCount = -1], and a world
    that holds it as [fw.pac]. *)
Definition negative_count_container : file :=
  Bytes (repeat 0 1076 ++ [255; 255; 255; 255] ++ repeat 0 140).
Definition negative_count_world : world :=
  World {[ "fw.pac"%string := Reg negative_count_container ]}
    0 1000000000 1000000000 [].

(** ** Further definitions for the statements *)

(** The low byte kept from a code unit. *)
Definition low_byte (c : Z) : Z := Z.land c 255.

(** The records found by walking [n] length-prefixed records of the
    container from offset [pos] on, computed from the content alone. *)
Fixpoint walk (n : nat) (fd : file) (pos : Z) : list (list Z) :=
  match n with
  | O => []
  | S n' =>
      match load_u32 (pread fd pos 4) 0 with
      | Some length => pread fd pos length :: walk n' fd (u32 (pos + length))
      | None => []
      end
  end.

(** Whether a command line is one of the three forms [main] accepts. *)
Definition recognised (argv : list string) : bool :=
  String.eqb (arg argv 1) "-h"
  || String.eqb (arg argv 1) "-v"
  || (String.eqb (arg argv 1) "-e" && String.eqb (arg argv 3) "-o").

(** The file system only grows, and only by directories. *)
Definition grows_by_directories (fs fs' : gmap string node) : Prop :=
  fs ⊆ fs' /\ forall q nd, fs' !! q = Some nd -> fs !! q = Some nd \/ nd = Dir.


(** The number of chunks needed for [n] bytes: [n / 256 KiB], rounded up. *)
Definition chunk_count (n : Z) : Z := (n + BUFFER_SIZE - 1) / BUFFER_SIZE.

(** The sum of a list of byte counts. *)
Definition total_bytes (l : list Z) : Z := fold_right Z.add 0 l.

(** Whether a path has no slash in it. *)
Fixpoint slash_free (s : string) : bool :=
  match s with
  | EmptyString => true
  | String c s' => negb (Ascii.eqb c slash) && slash_free s'
  end.

(** The components of a path: its parts between slashes.  [cur] is the
    part read so far. *)
Fixpoint components_from (cur p : string) : list string :=
  match p with
  | EmptyString => [cur]
  | String c p' =>
      if Ascii.eqb c slash then cur :: components_from "" p'
      else components_from (cur ++ String c EmptyString) p'
  end.

Definition components (p : string) : list string := components_from "" p.

(** A component that names an entry of its directory: not empty and
    neither [.] nor [..]. *)
Definition plain_component (c : string) : bool :=
  negb (String.eqb c "") && negb (String.eqb c ".") && negb (String.eqb c "..").

(** A canonical relative path: every component is plain, so that the path
    neither starts nor ends with a slash and two different such paths
    denote different files. *)
Definition canonical (p : string) : bool :=
  forallb plain_component (components p).

(** ** Further concrete inputs *)

(** The code units of "boot", a terminator, and something after it. *)
Definition boot_units : list Z := [98; 111; 111; 116].

(** A container with one partition: the header announces one record at
    offset 1220; the record, of 1568 bytes, names the partition "boot",
    the file "b.img", and a payload of 5 bytes at offset 2788. *)
Definition one_partition_container : file :=
  Bytes (repeat 0 1076 ++ [1; 0; 0; 0] ++ [196; 4; 0; 0] ++ repeat 0 136
         ++ [32; 6; 0; 0]
         ++ [98; 0; 111; 0; 111; 0; 116; 0] ++ repeat 0 504
         ++ [98; 0; 46; 0; 105; 0; 109; 0; 103; 0] ++ repeat 0 1014
         ++ [5; 0; 0; 0] ++ repeat 0 8 ++ [228; 10; 0; 0] ++ repeat 0 12
         ++ [1; 2; 3; 4; 5]).
Definition one_partition_world : world :=
  World {[ "fw.pac"%string := Reg one_partition_container ]}
    0 1000000000 1000000000 [].
Definition one_partition_argv : list string :=
  ["pacextractor"; "-e"; "fw.pac"; "-o"; "out"]%string.

(** A world in which the destination [out/a] of the sample record is a
    directory with a file in it. *)
Definition occupied_world : world :=
  World {[ "out"%string := Dir; "out/a"%string := Dir;
           "out/a/x"%string := Reg (Bytes [1]) ]}
    0 1000000000 1000000000 [].

(** A container of 4 GiB + 100 bytes, and a world that holds it. *)
Definition oversize_container : file := Sparse (two32 + 100) (fun _ => 0).
Definition oversize_world : world :=
  World {[ "fw.pac"%string := Reg oversize_container ]}
    0 1000000000 1000000000 [].

(** A record like the sample record whose file name is made of the code
    units 'A', 0x0100, 'B': the low byte of the second one is zero. *)
Definition nul_name_record : list Z :=
  repeat 0 516 ++ [65; 0; 0; 1; 66; 0] ++ repeat 0 1018 ++ [5; 0; 0; 0]
    ++ repeat 0 8 ++ [2; 0; 0; 0] ++ repeat 0 12.

(** * Properties *)

(** ** Integer and buffer facts *)

Lemma u32_range z : 0 <= u32 z < two32.
Proof. unfold u32, two32. apply Z.mod_pos_bound. lia. Qed.

Lemma u32_small z : 0 <= z < two32 -> u32 z = z.
Proof. unfold u32. intros. apply Z.mod_small. assumption. Qed.

Lemma usize_small z : 0 <= z < two64 -> usize z = z.
Proof. unfold usize. intros. apply Z.mod_small. assumption. Qed.

Lemma i32_small z : 0 <= z < 2147483648 -> i32 z = z.
Proof.
  intros Hz. unfold i32, two32. rewrite Z.mod_small by lia.
  destruct (Z.ltb_spec z 2147483648); lia.
Qed.

Lemma fsize_nonneg f : 0 <= fsize f.
Proof. destruct f; simpl; lia. Qed.

Lemma length_pread f pos n : length (pread f pos n) = Z.to_nat n.
Proof. unfold pread. rewrite length_fmap. apply length_seqZ. Qed.

Lemma pread_app f pos a b :
  0 <= a -> 0 <= b -> pread f pos (a + b) = pread f pos a ++ pread f (pos + a) b.
Proof.
  intros Ha Hb. unfold pread. rewrite seqZ_app by assumption.
  apply fmap_app.
Qed.

Lemma pread_nil f pos : pread f pos 0 = [].
Proof. reflexivity. Qed.

(** ** getString *)

(** The guard of the loop never fires: a run of non-zero code units is
    stored whole, whatever its length. *)
Lemma getString_loop_run us : forall resString out tl,
  Forall (fun c => c <> 0) us ->
  getString_loop (us ++ 0 :: tl) resString out
  = Some (out ++ ((fun c => Z.land c 255) <$> us) ++ [0]).
Proof.
  induction us as [|c us IH]; intros resString out tl Hnz; simpl.
  - reflexivity.
  - inversion Hnz as [|? ? Hc Hus]; subst.
    destruct (Z.eqb_spec c 0) as [|_]; [contradiction|].
    replace (resString + 1 - (resString + 1)) with 0 by lia. simpl.
    rewrite IH by assumption. rewrite <- app_assoc. reflexivity.
Qed.


(** The output is not bounded: for every limit there is a field on which
    more bytes than the limit are stored. *)
Lemma getString_no_limit maxOutputLength us :
  Forall (fun c => c <> 0) us ->
  maxOutputLength < Z.of_nat (length us) ->
  exists stored,
    getString (Some (us ++ [0])) = Some stored /\
    maxOutputLength < Z.of_nat (length stored).
Proof.
  intros Hnz Hlen. eexists. split.
  - simpl. apply getString_loop_run. assumption.
  - simpl. rewrite length_app, length_fmap. simpl. lia.
Qed.

(** C1: on a partition record whose 256-unit [partitionName] field has
    no terminator, [getString] stores 261 bytes (the 256 of the field, 4
    more taken from the [fileName] field that follows, and the terminator)
    although its destination [partitionName[256]] in [main] has room for
    256: the comparison [resString - resString > 255] never limits the
    output, and the destination overflows. *)
Theorem getString_exceeds_destination :
  getString (Some (field_units overlong_name_record off_partitionName))
  = Some (repeat 65 256 ++ repeat 66 4 ++ [0])
  /\ Z.of_nat (length (repeat 65 256 ++ repeat 66 4 ++ [0])) = 261
  /\ decode_field overlong_name_record off_partitionName 256 = None.
Proof. repeat split; vm_compute; reflexivity. Qed.

(** ** Command line *)


Lemma log_logs e w : log e w = logs [e] w.
Proof. reflexivity. Qed.

Lemma logs_logs es1 es2 w : logs es2 (logs es1 w) = logs (es1 ++ es2) w.
Proof. unfold logs. simpl. rewrite <- app_assoc. reflexivity. Qed.

Lemma printUsage_run w : printUsage w = (Ret tt, logs usage_events w).
Proof.
  unfold printUsage, bind, emit, log, logs, usage_events. simpl.
  rewrite <- !app_assoc. reflexivity.
Qed.

(** C6: invoked as [pacextractor -h], [main] prints the usage text and
    then calls [exit(EXIT_FAILURE)]: with two arguments the test
    [argc < 5] is taken before [-h] is looked at, so the exit status is 1. *)
Theorem main_dash_h_exits_with_failure w :
  main ["pacextractor"%string; "-h"%string] w
  = (Exit EXIT_FAILURE, logs usage_events w)
  /\ EXIT_FAILURE = 1.
Proof.
  split; [|reflexivity].
  unfold main. simpl. unfold printUsageAndExit, bind.
  rewrite printUsage_run. reflexivity.
Qed.

(** The [-h] branch itself exits with status 0; it is reached only with at
    least four arguments after the program name. *)
Lemma main_dash_h_long prog a2 a3 a4 rest w :
  main (prog :: "-h"%string :: a2 :: a3 :: a4 :: rest) w
  = (Exit EXIT_SUCCESS, logs usage_events w).
Proof.
  unfold main.
  replace (Z.of_nat (length (prog :: "-h"%string :: a2 :: a3 :: a4 :: rest)) <? 5)
    with false.
  - simpl. unfold bind. rewrite printUsage_run. reflexivity.
  - symmetry. apply Z.ltb_ge. simpl length. lia.
Qed.

(** ** Extraction of one partition *)

(** C7: a record whose [partitionSize] is 0 makes [extractPartition]
    return at once: the world is left exactly as it was (no file removed,
    created or written, no call made) and the outcome is a normal return. *)
Theorem extractPartition_empty_is_noop fd partHeader outputPath w :
  load_u32 partHeader off_partitionSize = Some 0 ->
  extractPartition fd partHeader outputPath w = (Ret tt, w).
Proof.
  intros Hsize. unfold extractPartition, bind, defined.
  rewrite Hsize. reflexivity.
Qed.

Lemma extractPartition_empty_is_noop_witness :
  load_u32 zero_record off_partitionSize = Some 0 /\
  extractPartition (Bytes []) zero_record "out" quiet_world = (Ret tt, quiet_world).
Proof.
  split; [reflexivity|].
  apply (extractPartition_empty_is_noop (Bytes []) zero_record "out" quiet_world).
  reflexivity.
Defined.

(** ** The driver *)

Lemma argc_at_least_5 (a0 a1 a2 a3 a4 : string) rest :
  (Z.of_nat (length (a0 :: a1 :: a2 :: a3 :: a4 :: rest)) <? 5) = false.
Proof. apply Z.ltb_ge. simpl length. lia. Qed.

Lemma main_extract prog path out rest w :
  main (prog :: "-e"%string :: path :: "-o"%string :: out :: rest) w
  = extract_command (prog :: "-e"%string :: path :: "-o"%string :: out :: rest) w.
Proof. unfold main. rewrite argc_at_least_5. reflexivity. Qed.

(** C8: when the container named on the command line is shorter than
    [sizeof(PacHeader)], [main] reports "File ... is not a valid firmware",
    closes the descriptor and exits with [EXIT_FAILURE]; the file system is
    untouched, so no output directory has been created (the only actions
    are the message and the close). *)
Theorem main_rejects_short_container prog path out rest f w :
  w_fs w !! path = Some (Reg f) ->
  fsize f < sizeof_PacHeader ->
  exists w',
    main (prog :: "-e"%string :: path :: "-o"%string :: out :: rest) w
      = (Exit EXIT_FAILURE, w') /\
    w_fs w' = w_fs w /\
    w_trace w' = w_trace w ++
      [EFprintf_stderr "File %s is not a valid firmware\n" [PStr path]; EClose].
Proof.
  intros Hfile Hshort. pose proof (fsize_nonneg f) as Hpos.
  unfold sizeof_PacHeader in Hshort.
  rewrite main_extract. unfold extract_command, openFirmwareFile, bind, sys_open.
  unfold arg. cbn [nth]. rewrite Hfile. unfold ret.
  rewrite i32_small by lia. rewrite usize_small by (unfold two64; lia).
  replace (fsize f <? sizeof_PacHeader) with true
    by (symmetry; apply Z.ltb_lt; unfold sizeof_PacHeader; lia).
  eexists. split; [reflexivity|]. simpl. split; [reflexivity|].
  rewrite <- app_assoc. reflexivity.
Qed.

Lemma main_rejects_short_container_witness :
  exists w',
    main ["pacextractor"; "-e"; "fw.pac"; "-o"; "out"]%string short_container_world
      = (Exit EXIT_FAILURE, w') /\
    w_fs w' = w_fs short_container_world /\
    w_trace w' = w_trace short_container_world ++
      [EFprintf_stderr "File %s is not a valid firmware\n" [PStr "fw.pac"]; EClose].
Proof.
  apply (main_rejects_short_container "pacextractor" "fw.pac" "out" []
           short_container short_container_world).
  - reflexivity.
  - vm_compute. reflexivity.
Defined.

(** ** The streaming loop *)

Lemma chunk_bounds left : 0 < left -> 0 < chunk left <= left /\ chunk left <= BUFFER_SIZE.
Proof. unfold chunk, BUFFER_SIZE. lia. Qed.

Lemma copyLength_chunk left :
  0 < left < two32 ->
  u32 (if left >? BUFFER_SIZE then BUFFER_SIZE else left) = chunk left.
Proof.
  intros H. unfold chunk.
  destruct (Z.gtb_spec left BUFFER_SIZE).
  - rewrite Z.min_r by lia. apply u32_small. unfold BUFFER_SIZE, two32. lia.
  - rewrite Z.min_l by lia. apply u32_small. lia.
Qed.

Lemma take_pread f pos a n :
  0 <= a <= n -> take (Z.to_nat a) (pread f pos n) = pread f pos a.
Proof.
  intros H. replace n with (a + (n - a)) by lia.
  rewrite pread_app by lia.
  rewrite take_app_length'; [reflexivity|]. symmetry. apply length_pread.
Qed.

Lemma alter_append (fs : gmap string node) path l0 data :
  fs !! path = Some (Reg (Bytes l0)) ->
  alter (fun nd => match nd with Reg f => Reg (fappend f data) | Dir => Dir end) path fs
  = <[path := Reg (Bytes (l0 ++ data))]> fs.
Proof.
  intros H. apply map_eq. intros q.
  destruct (decide (path = q)) as [->|Hne].
  - rewrite lookup_alter_eq, lookup_insert_eq, H. reflexivity.
  - rewrite lookup_alter_ne, lookup_insert_ne by assumption. reflexivity.
Qed.

(** What one read of a chunk returns. *)
Lemma read_chunk_got left avail :
  0 < left -> 0 <= avail ->
  Z.min (chunk left) (Z.min MAX_RW_COUNT avail)
  = if avail <? chunk left then avail else chunk left.
Proof.
  intros Hl Ha. pose proof (chunk_bounds left Hl) as [Hc Hb].
  unfold BUFFER_SIZE in Hb. unfold MAX_RW_COUNT.
  destruct (Z.ltb_spec avail (chunk left)); lia.
Qed.

(** Unfolding the bookkeeping of the world. *)
Ltac world_simpl :=
  cbv beta iota zeta delta
    [bind emit sys_close exit ret printProgressBar log logs
     set_pos set_free set_fs fst snd negb];
  cbn [w_fs w_pos w_free w_heap w_trace];
  rewrite <- ?app_assoc; cbn [app].

(** How many bytes a run delivers. *)
Lemma loop_run_bytes total left done o k evs :
  loop_run total left done o k evs ->
  0 <= k <= left /\ (o = Ret tt -> k = left) /\ (o <> Ret tt -> k < left).
Proof.
  induction 1 as [done|left done o k evs Hl Hrun IH|left done got Hl Hg|left done put Hl Hp].
  - split; [lia|]. split; [reflexivity|congruence].
  - pose proof (chunk_bounds left Hl) as [Hc _].
    destruct IH as (Hk & Hret & Hexit).
    split; [lia|]. split; intros Ho; [specialize (Hret Ho)|specialize (Hexit Ho)]; lia.
  - pose proof (chunk_bounds left Hl) as [Hc _].
    split; [lia|]. split; [discriminate|lia].
  - pose proof (chunk_bounds left Hl) as [Hc _].
    split; [lia|]. split; [discriminate|lia].
Qed.

Section Streaming.

(** The container, the destination and the record's [partitionSize] are
    fixed during one extraction. *)
Variables (fd : file) (path : string) (total : Z).

(** The three ways an iteration can go. *)
Lemma body_short_read left done w :
  0 < left < two32 ->
  Z.max 0 (fsize fd - w_pos w) < chunk left ->
  let got := Z.max 0 (fsize fd - w_pos w) in
  extractPartition_body fd path total (left, done) w
  = (Exit EXIT_FAILURE,
     World (w_fs w) (w_pos w + got) (w_free w) (w_heap w)
       (w_trace w ++ [ERead (chunk left) got;
                      EPerror "Error while reading partition data"; EClose])).
Proof.
  intros Hl Hshort got. unfold extractPartition_body. cbn [fst snd].
  rewrite copyLength_chunk by assumption.
  unfold bind, sys_read. cbn [fst snd].
  rewrite read_chunk_got by lia.
  fold got. replace (got <? chunk left) with true by (symmetry; apply Z.ltb_lt; assumption).
  replace (got =? chunk left) with false by (symmetry; apply Z.eqb_neq; lia).
  world_simpl. reflexivity.
Qed.

Lemma body_short_write left done w :
  0 < left < two32 ->
  chunk left <= Z.max 0 (fsize fd - w_pos w) ->
  w_free w < chunk left ->
  exists put fs',
    extractPartition_body fd path total (left, done) w
    = (Exit EXIT_FAILURE,
       World fs' (w_pos w + chunk left) (Z.min 0 (w_free w)) (w_heap w)
         (w_trace w ++ [ERead (chunk left) (chunk left); EWrite (chunk left) put;
                        EPerror "Error while writing partition data"; EClose])) /\
    -1 <= put < chunk left /\
    (forall l0, w_fs w !! path = Some (Reg (Bytes l0)) ->
       fs' = <[path := Reg (Bytes (l0 ++ pread fd (w_pos w) (Z.max 0 put)))]> (w_fs w)).
Proof.
  intros Hl Havail Hfree. pose proof (chunk_bounds left ltac:(lia)) as [Hc Hb].
  unfold extractPartition_body. cbn [fst snd].
  rewrite copyLength_chunk by assumption.
  unfold bind, sys_read. cbn [fst snd].
  rewrite read_chunk_got by lia.
  replace (Z.max 0 (fsize fd - w_pos w) <? chunk left) with false
    by (symmetry; apply Z.ltb_ge; assumption).
  rewrite Z.eqb_refl. cbn [negb]. unfold sys_write. cbn [w_free w_fs set_pos log].
  replace (chunk left <=? w_free w) with false by (symmetry; apply Z.leb_gt; assumption).
  destruct (Z.ltb_spec 0 (w_free w)) as [Hpos|Hnone].
  - exists (w_free w). eexists. split; [|split].
    + replace (w_free w =? chunk left) with false by (symmetry; apply Z.eqb_neq; lia).
      world_simpl. rewrite Z.min_l by lia. reflexivity.
    + lia.
    + intros l0 Hl0. rewrite Z.max_r by lia.
      rewrite take_pread by lia. apply alter_append. assumption.
  - exists (-1). eexists. split; [|split].
    + replace (-1 =? chunk left) with false by (symmetry; apply Z.eqb_neq; lia).
      world_simpl. rewrite Z.min_r by lia. destruct w; reflexivity.
    + lia.
    + intros l0 Hl0. cbn. rewrite app_nil_r. symmetry. apply insert_id. assumption.
Qed.

Lemma body_full left done w :
  0 < left < two32 -> 0 <= done -> done + left < two32 ->
  chunk left <= Z.max 0 (fsize fd - w_pos w) ->
  chunk left <= w_free w ->
  exists fs',
    extractPartition_body fd path total (left, done) w
    = (Ret (left - chunk left, done + chunk left),
       World fs' (w_pos w + chunk left) (w_free w - chunk left) (w_heap w)
         (w_trace w ++ [ERead (chunk left) (chunk left);
                        EWrite (chunk left) (chunk left);
                        EProgress (done + chunk left) total])) /\
    (forall l0, w_fs w !! path = Some (Reg (Bytes l0)) ->
       fs' = <[path := Reg (Bytes (l0 ++ pread fd (w_pos w) (chunk left)))]> (w_fs w)).
Proof.
  intros Hl Hd Hsum Havail Hfree. pose proof (chunk_bounds left ltac:(lia)) as [Hc Hb].
  unfold extractPartition_body. cbn [fst snd].
  rewrite copyLength_chunk by assumption.
  unfold bind, sys_read. cbn [fst snd].
  rewrite read_chunk_got by lia.
  replace (Z.max 0 (fsize fd - w_pos w) <? chunk left) with false
    by (symmetry; apply Z.ltb_ge; assumption).
  rewrite Z.eqb_refl. cbn [negb]. unfold sys_write. cbn [w_free w_fs set_pos log].
  replace (chunk left <=? w_free w) with true by (symmetry; apply Z.leb_le; assumption).
  rewrite Z.eqb_refl. cbn [negb].
  rewrite (u32_small (left - chunk left)) by lia.
  rewrite (u32_small (done + chunk left)) by lia.
  eexists. split.
  - world_simpl. reflexivity.
  - intros l0 Hl0. rewrite take_pread by lia. apply alter_append. assumption.
Qed.

(** Every execution of the loop with enough fuel is one of the runs
    described by [loop_run]; in particular it neither runs out of fuel nor
    has undefined behaviour. *)
Lemma loop_sound fuel : forall left done w o w',
  0 <= left -> left <= Z.of_nat fuel * BUFFER_SIZE ->
  0 <= done -> done + left < two32 ->
  extractPartition_loop fuel fd path total (left, done) w = (o, w') ->
  exists k evs,
    loop_run total left done o k evs /\
    w_trace w' = w_trace w ++ evs /\
    (forall l0, w_fs w !! path = Some (Reg (Bytes l0)) ->
       w_fs w' = <[path := Reg (Bytes (l0 ++ pread fd (w_pos w) k))]> (w_fs w)) /\
    (o = Ret tt -> 0 < left -> w_pos w + left <= fsize fd).
Proof.
  induction fuel as [|fuel IH]; intros left done w o w' Hl Hfuel Hd Hsum Hrun.
  - assert (left = 0) as -> by (unfold BUFFER_SIZE in Hfuel; lia).
    cbn in Hrun. injection Hrun as <- <-.
    exists 0, []. split; [constructor|]. split; [symmetry; apply app_nil_r|].
    split; [|lia].
    intros l0 Hl0. cbn. rewrite app_nil_r. symmetry. apply insert_id. assumption.
  - cbn [extractPartition_loop fst] in Hrun.
    destruct (Z.gtb_spec left 0) as [Hpos|Hzero].
    2:{ assert (left = 0) as -> by lia. injection Hrun as <- <-.
        exists 0, []. split; [constructor|]. split; [symmetry; apply app_nil_r|].
        split; [|lia].
        intros l0 Hl0. cbn. rewrite app_nil_r. symmetry. apply insert_id. assumption. }
    pose proof (chunk_bounds left ltac:(lia)) as [Hc Hb].
    unfold bind in Hrun.
    destruct (Z.lt_ge_cases (Z.max 0 (fsize fd - w_pos w)) (chunk left)) as [Hshort|Havail].
    + rewrite body_short_read in Hrun by (assumption || lia).
      injection Hrun as <- <-.
      exists 0. eexists.
      split; [apply run_short_read with (got := Z.max 0 (fsize fd - w_pos w)); lia|].
      split; [reflexivity|]. split; [|discriminate].
      intros l0 Hl0. cbn. rewrite app_nil_r. symmetry. apply insert_id. assumption.
    + destruct (Z.lt_ge_cases (w_free w) (chunk left)) as [Hfull|Hroom].
      * destruct (body_short_write left done w)
          as (put & fs' & Hbody & Hput & Hfs); [lia|assumption|assumption|].
        rewrite Hbody in Hrun. injection Hrun as <- <-.
        exists (Z.max 0 put). eexists. split; [apply run_short_write; lia|].
        split; [reflexivity|]. split; [exact Hfs|discriminate].
      * destruct (body_full left done w) as (fs' & Hbody & Hfs);
          [lia|assumption|lia|assumption|assumption|].
        rewrite Hbody in Hrun.
        assert (left - chunk left <= Z.of_nat fuel * BUFFER_SIZE) as Hfuel'
          by (rewrite Nat2Z.inj_succ in Hfuel; unfold chunk, BUFFER_SIZE in *; lia).
        apply IH in Hrun; [|lia|exact Hfuel'|lia|lia].
        destruct Hrun as (k & evs & Hruns & Htrace & Hfs' & Hin).
        pose proof (loop_run_bytes _ _ _ _ _ _ Hruns) as (Hk & _ & _).
        exists (chunk left + k). eexists. split; [apply run_chunk; [lia|exact Hruns]|].
        split; [|split].
        { rewrite Htrace. cbn. rewrite <- app_assoc. reflexivity. }
        { intros l0 Hl0. cbn in Hfs'. rewrite (Hfs l0 Hl0) in Hfs'.
          rewrite (Hfs' (l0 ++ pread fd (w_pos w) (chunk left))) by apply lookup_insert_eq.
          rewrite insert_insert_eq. rewrite <- app_assoc.
          rewrite <- pread_app by lia. reflexivity. }
        intros Ho _. cbn [w_pos] in Hin.
        destruct (Z.eq_dec (left - chunk left) 0); [lia|].
        specialize (Hin Ho ltac:(lia)). lia.
Qed.

(** With the payload inside the container and room for it on the output
    device, the loop returns. *)
Lemma loop_completes fuel : forall left done w,
  0 <= left -> left <= Z.of_nat fuel * BUFFER_SIZE ->
  0 <= done -> done + left < two32 ->
  w_pos w + left <= fsize fd ->
  left <= w_free w ->
  exists w', extractPartition_loop fuel fd path total (left, done) w = (Ret tt, w').
Proof.
  induction fuel as [|fuel IH]; intros left done w Hl Hfuel Hd Hsum Hin Hroom.
  - assert (left = 0) as -> by (unfold BUFFER_SIZE in Hfuel; lia).
    exists w. reflexivity.
  - cbn [extractPartition_loop fst].
    destruct (Z.gtb_spec left 0) as [Hpos|Hzero]; [|exists w; reflexivity].
    pose proof (chunk_bounds left ltac:(lia)) as [Hc Hb].
    destruct (body_full left done w) as (fs' & Hbody & _); [lia..|].
    unfold bind. rewrite Hbody.
    apply IH; cbn [w_pos w_free]; try lia.
    rewrite Nat2Z.inj_succ in Hfuel. unfold chunk, BUFFER_SIZE in *. lia.
Qed.

End Streaming.

Lemma reads_cons e evs :
  reads (e :: evs)
  = match e with ERead n got => (n, got) :: reads evs | _ => reads evs end.
Proof. destruct e; reflexivity. Qed.

Lemma writes_cons e evs :
  writes (e :: evs)
  = match e with EWrite n put => (n, put) :: writes evs | _ => writes evs end.
Proof. destruct e; reflexivity. Qed.

Lemma reports_cons e evs :
  reports (e :: evs)
  = match e with EProgress c t => (c, t) :: reports evs | _ => reports evs end.
Proof. destruct e; reflexivity. Qed.

(** A successful run reads and writes the same full chunks. *)
Lemma loop_run_success_io total left done k evs :
  loop_run total left done (Ret tt) k evs ->
  exists cs,
    chunked left cs /\
    reads evs = (fun c => (c, c)) <$> cs /\
    writes evs = (fun c => (c, c)) <$> cs.
Proof.
  remember (Ret tt) as o eqn:Ho. intros Hrun.
  induction Hrun as [done|left done o k evs Hl Hrun IH| |]; try discriminate.
  - exists []. repeat split. constructor.
  - destruct (IH Ho) as (cs & Hcs & Hr & Hw).
    exists (chunk left :: cs). split; [constructor; assumption|].
    rewrite !reads_cons, !writes_cons, Hr, Hw. split; reflexivity.
Qed.

Lemma loop_run_success_full total left done k evs :
  loop_run total left done (Ret tt) k evs ->
  Forall (fun e => is_short e = false) evs.
Proof.
  remember (Ret tt) as o eqn:Ho. intros Hrun.
  induction Hrun as [done|left done o k evs Hl Hrun IH| |]; try discriminate.
  - constructor.
  - repeat constructor; cbn; try apply Z.ltb_irrefl. apply IH. assumption.
Qed.

(** A run that does not return ends right after its first short call. *)
Lemma loop_run_failure total left done o k evs :
  loop_run total left done o k evs ->
  o <> Ret tt ->
  o = Exit EXIT_FAILURE /\
  exists pre call msg,
    evs = pre ++ [call; EPerror msg; EClose] /\
    is_short call = true /\
    Forall (fun e => is_short e = false) pre.
Proof.
  induction 1 as [done|left done o k evs Hl Hrun IH|left done got Hl Hg|left done put Hl Hp];
    intros Ho.
  - congruence.
  - destruct (IH Ho) as (-> & pre & call & msg & -> & Hcall & Hpre).
    split; [reflexivity|].
    exists (ERead (chunk left) (chunk left) :: EWrite (chunk left) (chunk left)
            :: EProgress (done + chunk left) total :: pre), call, msg.
    split; [reflexivity|]. split; [assumption|].
    repeat constructor; cbn; try apply Z.ltb_irrefl. assumption.
  - split; [reflexivity|]. exists [], (ERead (chunk left) got), "Error while reading partition data"%string.
    split; [reflexivity|]. split; [cbn; apply Z.ltb_lt; lia|constructor].
  - split; [reflexivity|]. exists [ERead (chunk left) (chunk left)], (EWrite (chunk left) put),
      "Error while writing partition data"%string.
    split; [reflexivity|]. split; [cbn; apply Z.ltb_lt; lia|].
    repeat constructor. cbn. apply Z.ltb_irrefl.
Qed.

(** The progress reports of a run. *)
Lemma loop_run_reports total left done o k evs :
  loop_run total left done o k evs ->
  0 <= done -> done + left = total ->
  Forall (fun r => snd r = total /\ done < fst r <= total) (reports evs) /\
  StronglySorted (fun a b => fst a < fst b) (reports evs) /\
  (o = Ret tt -> 0 < left -> last (reports evs) = Some (total, total)).
Proof.
  induction 1 as [done|left done o k evs Hl Hrun IH|left done got Hl Hg|left done put Hl Hp];
    intros Hd Hsum.
  - cbn. split; [constructor|]. split; [constructor|]. lia.
  - pose proof (chunk_bounds left Hl) as [Hc _].
    destruct IH as (Hall & Hsorted & Hlast); [lia|lia|].
    rewrite !reports_cons.
    split; [|split].
    + constructor; [cbn; split; [reflexivity|lia]|].
      eapply Forall_impl; [exact Hall|]. cbn. intros r [Ht Hr]. split; [assumption|lia].
    + constructor; [assumption|].
      eapply Forall_impl; [exact Hall|]. cbn. intros r [Ht Hr]. lia.
    + intros Ho _. destruct (Z.eq_dec (left - chunk left) 0) as [Hz|Hnz].
      * inversion Hrun as [done' H1 H2|? ? ? ? ? Hpos|? ? ? Hpos|? ? ? Hpos]; subst;
          try lia; try discriminate.
        cbn. f_equal. f_equal. lia.
      * rewrite last_cons. rewrite Hlast by (assumption || lia). reflexivity.
  - cbn. split; [constructor|]. split; [constructor|]. discriminate.
  - cbn. split; [constructor|]. split; [constructor|]. discriminate.
Qed.

(** ** Running [extractPartition] *)

Lemma byte_range b : 0 <= byte b < 256.
Proof. unfold byte. apply Z.mod_pos_bound. lia. Qed.

Lemma load_u32_range buf off v : load_u32 buf off = Some v -> 0 <= v < two32.
Proof.
  unfold load_u32. destruct (from_offset buf off) as [|b0 [|b1 [|b2 [|b3 ?]]]];
    try discriminate.
  intros [= <-].
  pose proof (byte_range b0). pose proof (byte_range b1).
  pose proof (byte_range b2). pose proof (byte_range b3).
  unfold two32. lia.
Qed.

Lemma loop_fuel_enough partitionSize :
  0 <= partitionSize ->
  partitionSize <= Z.of_nat (loop_fuel partitionSize) * BUFFER_SIZE.
Proof.
  intros H. unfold loop_fuel. rewrite Nat2Z.inj_succ, Z2Nat.id.
  - unfold BUFFER_SIZE. pose proof (Z.div_mod partitionSize (256 * 1024) ltac:(lia)).
    pose proof (Z.mod_pos_bound partitionSize (256 * 1024) ltac:(lia)). lia.
  - apply Z.div_pos; unfold BUFFER_SIZE; lia.
Qed.

Lemma bind_ret_inv {A B} (m : prog A) (k : A -> prog B) w b w' :
  bind m k w = (Ret b, w') ->
  exists a w1, m w = (Ret a, w1) /\ k a w1 = (Ret b, w').
Proof.
  unfold bind. destruct (m w) as [[a| | |] w1]; try discriminate.
  intros H. exists a, w1. split; [reflexivity|assumption].
Qed.

Lemma defined_ret_inv {A} (o : option A) w a w' :
  defined o w = (Ret a, w') -> o = Some a /\ w' = w.
Proof.
  destruct o as [x|]; cbn; [|discriminate].
  intros [= -> ->]. split; reflexivity.
Qed.

Lemma sys_remove_effect path w o w' :
  sys_remove path w = (o, w') ->
  w_pos w' = w_pos w /\ w_trace w' = w_trace w ++ [ERemove path].
Proof.
  unfold sys_remove.
  destruct (w_fs w !! path) as [[|f]|]; [destruct (dir_empty (w_fs w) path)| |];
    intros [= <- <-]; split; reflexivity.
Qed.

Lemma sys_creat_true path w w' :
  sys_creat path w = (Ret true, w') ->
  w' = log (ECreat path) (set_fs (<[path := Reg (Bytes [])]> (w_fs w)) w).
Proof.
  unfold sys_creat.
  destruct (w_fs w !! path) as [[|f]|]; try discriminate;
    destruct (parent_exists (w_fs w) path && negb (ends_with_slash path));
    try discriminate;
    intros [= <-]; reflexivity.
Qed.

Lemma reads_app evs1 evs2 : reads (evs1 ++ evs2) = reads evs1 ++ reads evs2.
Proof. apply omap_app. Qed.

Lemma writes_app evs1 evs2 : writes (evs1 ++ evs2) = writes evs1 ++ writes evs2.
Proof. apply omap_app. Qed.

(** What a successful, non-empty extraction went through. *)
Lemma extractPartition_success fd partHeader outputPath w w' partitionSize :
  load_u32 partHeader off_partitionSize = Some partitionSize ->
  partitionSize <> 0 ->
  extractPartition fd partHeader outputPath w = (Ret tt, w') ->
  exists partitionAddrInPac fileName w1 w2,
    load_u32 partHeader off_partitionAddrInPac = Some partitionAddrInPac /\
    decode_field partHeader off_fileName 512 = Some fileName /\
    let path := outputFilePath outputPath fileName in
    w_pos w1 = partitionAddrInPac /\
    w_fs w1 !! path = Some (Reg (Bytes [])) /\
    w_trace w1 = w_trace w ++ [ELseek partitionAddrInPac; ERemove path; ECreat path;
                               EPrintf "Extracting to %s\n" [PStr path]] /\
    extractPartition_loop (loop_fuel partitionSize) fd path partitionSize
      (partitionSize, 0) w1 = (Ret tt, w2) /\
    w' = logs [EPrintf "\n" []; EClose] w2.
Proof.
  intros Hsize Hnz Hrun. unfold extractPartition in Hrun.
  apply bind_ret_inv in Hrun as (size & w0 & Hdef & Hrun).
  apply defined_ret_inv in Hdef as [Hdef ->].
  rewrite Hsize in Hdef. injection Hdef as <-.
  destruct (Z.eqb_spec partitionSize 0) as [|_]; [contradiction|].
  apply bind_ret_inv in Hrun as (addr & w0 & Hdef & Hrun).
  apply defined_ret_inv in Hdef as [Haddr ->].
  apply bind_ret_inv in Hrun as ([] & w0 & Hseek & Hrun).
  unfold sys_lseek in Hseek. injection Hseek as <-.
  apply bind_ret_inv in Hrun as (buffer & w0 & Hmalloc & Hrun).
  unfold sys_malloc in Hmalloc. injection Hmalloc as <- <-.
  match type of Hrun with
  | (if negb ?b then _ else _) _ = _ => destruct b; cbn [negb] in Hrun
  end; [|discriminate].
  apply bind_ret_inv in Hrun as (fileName & w0 & Hdef & Hrun).
  apply defined_ret_inv in Hdef as [Hname ->].
  apply bind_ret_inv in Hrun as (r & w3 & Hremove & Hrun).
  apply sys_remove_effect in Hremove as [Hpos3 Htrace3].
  match type of Hrun with
  | (if ?b then _ else _) _ = _ => destruct b
  end; [discriminate|].
  apply bind_ret_inv in Hrun as (fd_new & w4 & Hcreat & Hrun).
  destruct fd_new; cbn [negb] in Hrun; [|discriminate].
  apply sys_creat_true in Hcreat. subst w4.
  apply bind_ret_inv in Hrun as ([] & w5 & Hemit & Hrun).
  unfold emit in Hemit. injection Hemit as <-.
  apply bind_ret_inv in Hrun as ([] & w6 & Hloop & Hrun).
  apply bind_ret_inv in Hrun as ([] & w7 & Hemit & Hrun).
  unfold emit in Hemit. injection Hemit as <-.
  unfold sys_close, emit in Hrun. injection Hrun as <-.
  exists addr, fileName. eexists. exists w6.
  split; [assumption|]. split; [assumption|]. cbn zeta.
  split; [|split; [|split; [|split; [exact Hloop|]]]].
  - cbn. exact Hpos3.
  - cbn. apply lookup_insert_eq.
  - cbn. rewrite Htrace3. cbn. rewrite <- !app_assoc. reflexivity.
  - unfold log, logs. cbn. rewrite <- app_assoc. reflexivity.
Qed.

(** Conversely the extraction does return when nothing stands in its
    way: the payload lies inside the container, the output device has
    room for it, the copy buffer can be allocated, and the destination is
    absent or a regular file in an existing directory (and its path does
    not end with a slash). *)
Lemma extractPartition_completes fd partHeader outputPath w
    partitionSize partitionAddrInPac fileName :
  load_u32 partHeader off_partitionSize = Some partitionSize ->
  partitionSize <> 0 ->
  load_u32 partHeader off_partitionAddrInPac = Some partitionAddrInPac ->
  decode_field partHeader off_fileName 512 = Some fileName ->
  BUFFER_SIZE <= w_heap w ->
  partitionAddrInPac + partitionSize <= fsize fd ->
  partitionSize <= w_free w ->
  (forall nd, w_fs w !! outputFilePath outputPath fileName = Some nd -> nd <> Dir) ->
  parent_exists (delete (outputFilePath outputPath fileName) (w_fs w))
    (outputFilePath outputPath fileName) = true ->
  ends_with_slash (outputFilePath outputPath fileName) = false ->
  exists w', extractPartition fd partHeader outputPath w = (Ret tt, w').
Proof.
  intros Hsize Hnz Haddr Hname Hheap Hin Hroom Hnode Hparent Hslash.
  pose proof (load_u32_range _ _ _ Hsize) as Hrange.
  unfold extractPartition. unfold bind at 1. rewrite Hsize. cbn [defined ret].
  destruct (Z.eqb_spec partitionSize 0) as [|_]; [contradiction|].
  unfold bind at 1. rewrite Haddr. cbn [defined ret].
  unfold bind at 1, sys_lseek at 1. unfold bind at 1, sys_malloc at 1.
  cbn [log set_pos w_heap].
  replace (BUFFER_SIZE <=? PTRDIFF_MAX) with true by reflexivity.
  replace (BUFFER_SIZE <=? w_heap w) with true by (symmetry; apply Z.leb_le; assumption).
  rewrite orb_true_r. cbn [andb negb].
  unfold bind at 1. rewrite Hname. cbn [defined ret].
  set (path := outputFilePath outputPath fileName) in *.
  set (w0 := World (w_fs w) partitionAddrInPac (w_free w) (w_heap w)
               (w_trace w ++ [ELseek partitionAddrInPac])).
  assert (exists r, sys_remove path w0
                    = (Ret r, World (delete path (w_fs w)) partitionAddrInPac (w_free w)
                                (w_heap w) (w_trace w0 ++ [ERemove path])) /\
                    ((fst r =? -1) && negb (snd r =? ENOENT) = false))
    as (r & Hremove & Hgo).
  { unfold sys_remove. cbn [w0 w_fs].
    destruct (w_fs w !! path) as [[|f]|] eqn:Hlook.
    - exfalso. apply (Hnode Dir); reflexivity.
    - exists (0, 0). split; reflexivity.
    - exists (-1, ENOENT). split; [|reflexivity].
      unfold log, set_fs. cbn. rewrite delete_id by assumption. reflexivity. }
  change (log (ELseek partitionAddrInPac) (set_pos partitionAddrInPac w)) with w0.
  unfold bind at 1. rewrite Hremove, Hgo.
  unfold bind at 1, sys_creat at 1. cbn [w_fs].
  rewrite lookup_delete_eq, Hparent, Hslash. cbn [andb negb].
  unfold bind at 1, emit at 1.
  match goal with
  | |- context [bind (extractPartition_loop ?fuel fd path partitionSize ?c) _ ?w1] =>
      destruct (loop_completes fd path partitionSize fuel partitionSize 0 w1)
        as (w2 & Hloop)
  end; try (cbn [log set_fs w_pos w_free]; lia).
  { apply loop_fuel_enough. lia. }
  unfold bind at 1. rewrite Hloop.
  eexists. reflexivity.
Qed.

(** C3: when [extractPartition] returns for a record with a non-zero
    [partitionSize], the destination [outputPath/fileName] holds exactly
    the [partitionSize] bytes found in the container from
    [partitionAddrInPac] on (all of which lie inside the container), and
    the copy was made by reads and writes of full chunks, each of size
    [min(remaining, 256 KiB)]. *)
Theorem extractPartition_copies_payload fd partHeader outputPath w w' partitionSize :
  load_u32 partHeader off_partitionSize = Some partitionSize ->
  partitionSize <> 0 ->
  extractPartition fd partHeader outputPath w = (Ret tt, w') ->
  exists partitionAddrInPac fileName copy cs,
    load_u32 partHeader off_partitionAddrInPac = Some partitionAddrInPac /\
    decode_field partHeader off_fileName 512 = Some fileName /\
    let path := outputFilePath outputPath fileName in
    let payload := pread fd partitionAddrInPac partitionSize in
    w_fs w' !! path = Some (Reg (Bytes payload)) /\
    Z.of_nat (length payload) = partitionSize /\
    partitionAddrInPac + partitionSize <= fsize fd /\
    w_trace w' = w_trace w
      ++ [ELseek partitionAddrInPac; ERemove path; ECreat path;
          EPrintf "Extracting to %s\n" [PStr path]]
      ++ copy ++ [EPrintf "\n" []; EClose] /\
    chunked partitionSize cs /\
    reads copy = (fun c => (c, c)) <$> cs /\
    writes copy = (fun c => (c, c)) <$> cs.
Proof.
  intros Hsize Hnz Hrun.
  pose proof (load_u32_range _ _ _ Hsize) as Hrange.
  destruct (extractPartition_success _ _ _ _ _ _ Hsize Hnz Hrun)
    as (addr & fileName & w1 & w2 & Haddr & Hname & Hpos & Hfile & Htrace & Hloop & ->).
  cbn zeta in *.
  apply loop_sound in Hloop; [|lia|apply loop_fuel_enough; lia|lia|lia].
  destruct Hloop as (k & copy & Hruns & Htrace2 & Hfs & Hin).
  pose proof (loop_run_bytes _ _ _ _ _ _ Hruns) as (_ & Hk & _).
  rewrite (Hk eq_refl) in Hfs.
  destruct (loop_run_success_io _ _ _ _ _ Hruns) as (cs & Hcs & Hreads & Hwrites).
  exists addr, fileName, copy, cs.
  split; [assumption|]. split; [assumption|].
  split; [|split; [|split; [|split; [|split; [assumption|split; assumption]]]]].
  - cbn [logs w_fs]. rewrite (Hfs [] Hfile), Hpos. apply lookup_insert_eq.
  - rewrite length_pread. lia.
  - specialize (Hin eq_refl ltac:(lia)). lia.
  - cbn [logs w_trace]. rewrite Htrace2, Htrace. rewrite <- !app_assoc. reflexivity.
Qed.

Lemma extractPartition_copies_payload_witness :
  exists partitionAddrInPac fileName copy cs,
    load_u32 sample_record off_partitionAddrInPac = Some partitionAddrInPac /\
    decode_field sample_record off_fileName 512 = Some fileName /\
    let path := outputFilePath "out" fileName in
    let payload := pread sample_container partitionAddrInPac 5 in
    w_fs sample_world_after !! path = Some (Reg (Bytes payload)) /\
    Z.of_nat (length payload) = 5 /\
    partitionAddrInPac + 5 <= fsize sample_container /\
    w_trace sample_world_after = w_trace sample_world
      ++ [ELseek partitionAddrInPac; ERemove path; ECreat path;
          EPrintf "Extracting to %s\n" [PStr path]]
      ++ copy ++ [EPrintf "\n" []; EClose] /\
    chunked 5 cs /\
    reads copy = (fun c => (c, c)) <$> cs /\
    writes copy = (fun c => (c, c)) <$> cs.
Proof.
  apply (extractPartition_copies_payload sample_container sample_record "out"
           sample_world sample_world_after 5).
  - vm_compute. reflexivity.
  - lia.
  - vm_compute. reflexivity.
Defined.

(** The sample extraction, evaluated: [out/a] receives bytes 2 to 6 of the
    container. *)
Example sample_extraction :
  w_fs sample_world_after !! "out/a"%string = Some (Reg (Bytes [12; 13; 14; 15; 16])).
Proof. vm_compute. reflexivity. Qed.

(** C9: in the streaming loop, started with the destination open at
    [path], a run that returns has made only full reads and writes; a run
    that meets a short read or a short write ends with
    [exit(EXIT_FAILURE)] right after that call (the only actions after it
    are the [perror] message and the [close] of the destination, so
    nothing is retried or resumed), and the destination keeps the bytes
    that had reached it ([k] of them, fewer than were to be copied): it is
    neither removed nor truncated. *)
Theorem streaming_short_io_is_fatal fuel fd path partitionSize left done l0 w o w' :
  0 <= left -> left <= Z.of_nat fuel * BUFFER_SIZE ->
  0 <= done -> done + left < two32 ->
  w_fs w !! path = Some (Reg (Bytes l0)) ->
  extractPartition_loop fuel fd path partitionSize (left, done) w = (o, w') ->
  exists evs,
    w_trace w' = w_trace w ++ evs /\
    (o = Ret tt -> Forall (fun e => is_short e = false) evs) /\
    (o <> Ret tt ->
       o = Exit EXIT_FAILURE /\
       exists pre call msg k,
         evs = pre ++ [call; EPerror msg; EClose] /\
         is_short call = true /\
         Forall (fun e => is_short e = false) pre /\
         0 <= k < left /\
         w_fs w' = <[path := Reg (Bytes (l0 ++ pread fd (w_pos w) k))]> (w_fs w)).
Proof.
  intros Hl Hfuel Hd Hsum Hfile Hrun.
  apply loop_sound in Hrun; [|assumption..].
  destruct Hrun as (k & evs & Hruns & Htrace & Hfs & _).
  exists evs. split; [assumption|]. split.
  - intros ->. eapply loop_run_success_full. exact Hruns.
  - intros Ho.
    destruct (loop_run_failure _ _ _ _ _ _ Hruns Ho) as (-> & pre & call & msg & -> & Hcall & Hpre).
    split; [reflexivity|]. exists pre, call, msg, k.
    pose proof (loop_run_bytes _ _ _ _ _ _ Hruns) as (Hk & _ & Hlt).
    split; [reflexivity|]. split; [assumption|]. split; [assumption|].
    split; [specialize (Hlt Ho); lia|]. apply Hfs. assumption.
Qed.

Lemma streaming_short_io_is_fatal_witness :
  exists evs,
    w_trace (snd (extractPartition_loop 1 sample_container "out/a" 5 (5, 0) cramped_world))
      = w_trace cramped_world ++ evs /\
    (fst (extractPartition_loop 1 sample_container "out/a" 5 (5, 0) cramped_world) = Ret tt ->
       Forall (fun e => is_short e = false) evs) /\
    (fst (extractPartition_loop 1 sample_container "out/a" 5 (5, 0) cramped_world) <> Ret tt ->
       fst (extractPartition_loop 1 sample_container "out/a" 5 (5, 0) cramped_world)
         = Exit EXIT_FAILURE /\
       exists pre call msg k,
         evs = pre ++ [call; EPerror msg; EClose] /\
         is_short call = true /\
         Forall (fun e => is_short e = false) pre /\
         0 <= k < 5 /\
         w_fs (snd (extractPartition_loop 1 sample_container "out/a" 5 (5, 0) cramped_world))
           = <[ "out/a"%string :=
                  Reg (Bytes ([] ++ pread sample_container (w_pos cramped_world) k)) ]>
               (w_fs cramped_world)).
Proof.
  apply (streaming_short_io_is_fatal 1 sample_container "out/a" 5 5 0 []
           cramped_world).
  - lia.
  - vm_compute. discriminate.
  - lia.
  - vm_compute. reflexivity.
  - reflexivity.
  - destruct (extractPartition_loop 1 sample_container "out/a" 5 (5, 0) cramped_world).
    reflexivity.
Defined.

(** The short write of the cramped run, evaluated: three of the five bytes
    reach [out/a], the run exits with status 1, and the file stays. *)
Example cramped_run :
  let r := extractPartition_loop 1 sample_container "out/a" 5 (5, 0) cramped_world in
  fst r = Exit EXIT_FAILURE /\
  w_fs (snd r) !! "out/a"%string = Some (Reg (Bytes [12; 13; 14])) /\
  w_trace (snd r) = [ERead 5 5; EWrite 5 3;
                     EPerror "Error while writing partition data"; EClose].
Proof. vm_compute. repeat split. Qed.

Lemma body_ret_inv fd path total left done w counters w' :
  0 < left < two32 -> 0 <= done -> done + left < two32 ->
  extractPartition_body fd path total (left, done) w = (Ret counters, w') ->
  counters = (left - chunk left, done + chunk left) /\
  w_trace w' = w_trace w ++ [ERead (chunk left) (chunk left);
                             EWrite (chunk left) (chunk left);
                             EProgress (done + chunk left) total].
Proof.
  intros Hl Hd Hsum Hrun.
  destruct (Z.lt_ge_cases (Z.max 0 (fsize fd - w_pos w)) (chunk left)) as [Hshort|Havail].
  - rewrite body_short_read in Hrun by assumption. discriminate.
  - destruct (Z.lt_ge_cases (w_free w) (chunk left)) as [Hfull|Hroom].
    + destruct (body_short_write fd path total left done w)
        as (put & fs' & Hbody & _); [assumption..|].
      rewrite Hbody in Hrun. discriminate.
    + destruct (body_full fd path total left done w) as (fs' & Hbody & _);
        [assumption..|].
      rewrite Hbody in Hrun. injection Hrun as <- <-. split; reflexivity.
Qed.

(** C10: [dataSizeRead + dataSizeLeft = partitionSize] holds when the
    loop is entered and is kept by every iteration that goes on (which
    also strictly increases [dataSizeRead] and ends with the report of the
    new [dataSizeRead]); hence, in any execution of the loop, every report
    has [total = partitionSize] and [0 < completed <= total], the reports
    are strictly increasing in [completed], and when the loop returns the
    last report is [(partitionSize, partitionSize)]. *)
Theorem extraction_progress_invariant fd path partitionSize :
  0 < partitionSize < two32 ->
  loop_invariant partitionSize (partitionSize, 0) /\
  (forall counters counters' w w',
      loop_invariant partitionSize counters ->
      0 < fst counters ->
      extractPartition_body fd path partitionSize counters w = (Ret counters', w') ->
      loop_invariant partitionSize counters' /\
      snd counters < snd counters' /\
      exists evs,
        w_trace w' = w_trace w ++ evs ++ [EProgress (snd counters') partitionSize]) /\
  (forall w o w',
      extractPartition_loop (loop_fuel partitionSize) fd path partitionSize
        (partitionSize, 0) w = (o, w') ->
      exists evs,
        w_trace w' = w_trace w ++ evs /\
        Forall (fun r => snd r = partitionSize /\ 0 < fst r <= partitionSize)
          (reports evs) /\
        StronglySorted (fun a b => fst a < fst b) (reports evs) /\
        (o = Ret tt -> last (reports evs) = Some (partitionSize, partitionSize))).
Proof.
  intros Hsize. split; [|split].
  - unfold loop_invariant. cbn. lia.
  - intros [left done] counters' w w' (Hsum & Hl & Hd) Hpos Hrun. cbn [fst snd] in *.
    apply body_ret_inv in Hrun as [-> Htrace]; [|lia..].
    pose proof (chunk_bounds left Hpos) as [Hc _].
    unfold loop_invariant. cbn [fst snd].
    split; [lia|]. split; [lia|].
    exists [ERead (chunk left) (chunk left); EWrite (chunk left) (chunk left)].
    rewrite Htrace. reflexivity.
  - intros w o w' Hrun.
    apply loop_sound in Hrun; [|lia|apply loop_fuel_enough; lia|lia|lia].
    destruct Hrun as (k & evs & Hruns & Htrace & _ & _).
    destruct (loop_run_reports _ _ _ _ _ _ Hruns) as (Hall & Hsorted & Hlast); [lia|lia|].
    exists evs. split; [assumption|]. split; [|split; [assumption|]].
    + eapply Forall_impl; [exact Hall|]. cbn. intros r [Ht Hr]. split; [assumption|lia].
    + intros Ho. apply Hlast; [assumption|lia].
Qed.

Lemma extraction_progress_invariant_witness :
  loop_invariant 5 (5, 0) /\
  (forall counters counters' w w',
      loop_invariant 5 counters ->
      0 < fst counters ->
      extractPartition_body sample_container "out/a" 5 counters w = (Ret counters', w') ->
      loop_invariant 5 counters' /\
      snd counters < snd counters' /\
      exists evs,
        w_trace w' = w_trace w ++ evs ++ [EProgress (snd counters') 5]) /\
  (forall w o w',
      extractPartition_loop (loop_fuel 5) sample_container "out/a" 5 (5, 0) w = (o, w') ->
      exists evs,
        w_trace w' = w_trace w ++ evs /\
        Forall (fun r => snd r = 5 /\ 0 < fst r <= 5) (reports evs) /\
        StronglySorted (fun a b => fst a < fst b) (reports evs) /\
        (o = Ret tt -> last (reports evs) = Some (5, 5))).
Proof.
  apply (extraction_progress_invariant sample_container "out/a" 5).
  vm_compute. split; reflexivity.
Defined.

(** ** The partition record reader *)

(** When a read on the container is complete. *)
Lemma read_complete fd pos n :
  0 <= n ->
  Z.min n (Z.min MAX_RW_COUNT (Z.max 0 (fsize fd - pos))) = n
  <-> n <= MAX_RW_COUNT /\ (n = 0 \/ pos + n <= fsize fd).
Proof. unfold MAX_RW_COUNT. lia. Qed.

(** The reader succeeds as soon as the prefix and the bytes it announces
    can be read and allocated, whatever the announced length is. *)
Lemma readPartitionHeader_run fd curPos w length :
  0 <= curPos ->
  curPos + 4 <= fsize fd ->
  load_u32 (pread fd curPos 4) 0 = Some length ->
  length <= MAX_RW_COUNT ->
  curPos + length <= fsize fd ->
  length = 0 \/ length <= w_heap w ->
  readPartitionHeader fd curPos w
  = (Ret (pread fd curPos length, u32 (curPos + length)),
     World (w_fs w) (curPos + length) (w_free w) (w_heap w)
       (w_trace w ++ [ELseek curPos; ERead 4 4; ELseek curPos; ERead length length])).
Proof.
  intros Hpos Hprefix Hlen Hmax Hfit Hheap.
  pose proof (load_u32_range _ _ _ Hlen) as Hrange.
  unfold readPartitionHeader, sys_lseek, sys_read, sys_malloc. world_simpl.
  replace (Z.min 4 (Z.min MAX_RW_COUNT (Z.max 0 (fsize fd - curPos)))) with 4
    by (unfold MAX_RW_COUNT; lia).
  cbn [Z.eqb Pos.eqb]. rewrite Hlen. cbn [defined]. world_simpl.
  replace (length <=? PTRDIFF_MAX) with true
    by (symmetry; apply Z.leb_le; unfold PTRDIFF_MAX, MAX_RW_COUNT in *; lia).
  replace ((length =? 0) || (length <=? w_heap w)) with true
    by (symmetry; apply orb_true_iff;
        destruct Hheap; [left; apply Z.eqb_eq|right; apply Z.leb_le]; assumption).
  cbn [andb].
  replace (Z.min length (Z.min MAX_RW_COUNT (Z.max 0 (fsize fd - curPos)))) with length
    by (unfold MAX_RW_COUNT in *; lia).
  rewrite Z.eqb_refl. world_simpl. reflexivity.
Qed.

(** What a successful call of the reader has done. *)
Lemma readPartitionHeader_ret_inv fd curPos w header next w' :
  0 <= curPos ->
  readPartitionHeader fd curPos w = (Ret (header, next), w') ->
  exists length,
    load_u32 (pread fd curPos 4) 0 = Some length /\
    header = pread fd curPos length /\
    next = u32 (curPos + length) /\
    curPos + 4 <= fsize fd /\
    curPos + length <= fsize fd /\
    w_fs w' = w_fs w /\
    w_trace w' = w_trace w ++ [ELseek curPos; ERead 4 4; ELseek curPos; ERead length length].
Proof.
  intros Hpos Hrun. unfold readPartitionHeader in Hrun.
  apply bind_ret_inv in Hrun as ([] & w0 & Hseek & Hrun).
  unfold sys_lseek in Hseek. injection Hseek as <-.
  apply bind_ret_inv in Hrun as (r & w0 & Hread & Hrun).
  unfold sys_read in Hread. cbn [set_pos log w_pos w_fs w_free w_heap w_trace] in Hread.
  injection Hread as <- <-. cbn [fst snd] in Hrun.
  destruct (Z.eqb_spec (Z.min 4 (Z.min MAX_RW_COUNT (Z.max 0 (fsize fd - curPos)))) 4)
    as [Hgot|]; cbn [negb] in Hrun; [|discriminate].
  rewrite Hgot in Hrun.
  apply bind_ret_inv in Hrun as (length & w0 & Hdef & Hrun).
  apply defined_ret_inv in Hdef as [Hlen ->].
  pose proof (load_u32_range _ _ _ Hlen) as Hrange.
  apply bind_ret_inv in Hrun as (ok & w0 & Hmalloc & Hrun).
  unfold sys_malloc in Hmalloc. injection Hmalloc as <- <-.
  match type of Hrun with
  | (if negb ?b then _ else _) _ = _ => destruct b; cbn [negb] in Hrun
  end; [|discriminate].
  apply bind_ret_inv in Hrun as ([] & w0 & Hseek & Hrun).
  unfold sys_lseek in Hseek. injection Hseek as <-.
  apply bind_ret_inv in Hrun as (r & w0 & Hread & Hrun).
  unfold sys_read in Hread. cbn [set_pos log w_pos w_fs w_free w_heap w_trace] in Hread.
  injection Hread as <- <-. cbn [fst snd] in Hrun.
  destruct (Z.eqb_spec (Z.min length (Z.min MAX_RW_COUNT (Z.max 0 (fsize fd - curPos)))) length)
    as [Hgot'|]; cbn [negb] in Hrun; [|discriminate].
  rewrite Hgot' in Hrun. unfold ret in Hrun. injection Hrun as <- <- <-.
  exists length. split; [assumption|]. split; [reflexivity|]. split; [reflexivity|].
  apply read_complete in Hgot; [|lia]. apply read_complete in Hgot'; [|lia].
  split; [lia|]. split; [lia|]. split; [reflexivity|].
  cbn. rewrite <- !app_assoc. reflexivity.
Qed.

Lemma seeks_app evs1 evs2 : seeks (evs1 ++ evs2) = seeks evs1 ++ seeks evs2.
Proof. apply omap_app. Qed.

(** One successful iteration of the record-reading loop. *)
Lemma readPartitionHeaders_S_inv n fd curPos w headers w' :
  0 <= curPos ->
  readPartitionHeaders (S n) fd curPos w = (Ret headers, w') ->
  exists length rest w1 args,
    load_u32 (pread fd curPos 4) 0 = Some length /\
    headers = pread fd curPos length :: rest /\
    w_trace w1 = w_trace w ++
      [ELseek curPos; ERead 4 4; ELseek curPos; ERead length length;
       EPrintf "Partition name: %s\n\twith file name: %s\n\twith size %u\n" args] /\
    readPartitionHeaders n fd (u32 (curPos + length)) w1 = (Ret rest, w').
Proof.
  intros Hpos Hrun. cbn [readPartitionHeaders] in Hrun.
  apply bind_ret_inv in Hrun as ([header next] & w0 & Hread & Hrun).
  apply readPartitionHeader_ret_inv in Hread
    as (length & Hlen & -> & -> & _ & _ & _ & Htrace); [|assumption].
  cbn [fst snd] in Hrun.
  apply bind_ret_inv in Hrun as (partitionName & w1 & Hdef & Hrun).
  apply defined_ret_inv in Hdef as [_ ->].
  apply bind_ret_inv in Hrun as (fileName & w1 & Hdef & Hrun).
  apply defined_ret_inv in Hdef as [_ ->].
  apply bind_ret_inv in Hrun as (partitionSize & w1 & Hdef & Hrun).
  apply defined_ret_inv in Hdef as [_ ->].
  apply bind_ret_inv in Hrun as ([] & w1 & Hemit & Hrun).
  unfold emit in Hemit. injection Hemit as <-.
  apply bind_ret_inv in Hrun as (rest & w2 & Hrest & Hrun).
  unfold ret in Hrun. injection Hrun as <- <-.
  exists length, rest. eexists. eexists.
  split; [assumption|]. split; [reflexivity|]. split; [|exact Hrest].
  cbn. rewrite Htrace, <- app_assoc. reflexivity.
Qed.

(** C2: a successful call of [readPartitionHeader] at [curPos] leaves
    [*curPos] at [(curPos + length) mod 2^32], where [length] is the 4-byte
    prefix found at [curPos]; this is [curPos + length] whenever that sum
    is below 2^32.  Hence, when two records are read starting at
    [partitionTableOffset], the second one is sought and read at
    [(partitionTableOffset + L1) mod 2^32], which is
    [partitionTableOffset + L1] whenever that sum is below 2^32. *)
Theorem readPartitionHeader_next_offset fd :
  (forall curPos w header next w',
     0 <= curPos < two32 ->
     readPartitionHeader fd curPos w = (Ret (header, next), w') ->
     exists length,
       load_u32 (pread fd curPos 4) 0 = Some length /\
       next = u32 (curPos + length) /\
       (curPos + length < two32 -> next = curPos + length)) /\
  (forall partitionTableOffset w headers w',
     0 <= partitionTableOffset < two32 ->
     readPartitionHeaders 2 fd partitionTableOffset w = (Ret headers, w') ->
     exists L1 L2 second evs,
       load_u32 (pread fd partitionTableOffset 4) 0 = Some L1 /\
       second = u32 (partitionTableOffset + L1) /\
       (partitionTableOffset + L1 < two32 -> second = partitionTableOffset + L1) /\
       load_u32 (pread fd second 4) 0 = Some L2 /\
       headers = [pread fd partitionTableOffset L1; pread fd second L2] /\
       w_trace w' = w_trace w ++ evs /\
       seeks evs = [partitionTableOffset; partitionTableOffset; second; second]).
Proof.
  split.
  - intros curPos w header next w' Hpos Hrun.
    apply readPartitionHeader_ret_inv in Hrun
      as (length & Hlen & _ & -> & _ & _ & _ & _); [|lia].
    pose proof (load_u32_range _ _ _ Hlen) as Hrange.
    exists length. split; [assumption|]. split; [reflexivity|].
    intros Hfit. apply u32_small. lia.
  - intros start w headers w' Hpos Hrun.
    apply readPartitionHeaders_S_inv in Hrun
      as (L1 & rest & w1 & args1 & HL1 & -> & Htrace1 & Hrun); [|lia].
    pose proof (load_u32_range _ _ _ HL1) as Hrange1.
    pose proof (u32_range (start + L1)) as Hsecond.
    apply readPartitionHeaders_S_inv in Hrun
      as (L2 & rest' & w2 & args2 & HL2 & -> & Htrace2 & Hrun); [|lia].
    cbn in Hrun. injection Hrun as <- <-.
    exists L1, L2, (u32 (start + L1)). eexists.
    split; [assumption|]. split; [reflexivity|].
    split; [intros Hfit; apply u32_small; lia|].
    split; [assumption|]. split; [reflexivity|].
    split.
    + rewrite Htrace2, Htrace1, <- app_assoc. reflexivity.
    + reflexivity.
Qed.

Lemma readPartitionHeader_next_offset_witness :
  (exists length,
     load_u32 (pread two_record_container 0 4) 0 = Some length /\
     1568 = u32 (0 + length) /\
     (0 + length < two32 -> 1568 = 0 + length)) /\
  (exists L1 L2 second evs,
     load_u32 (pread two_record_container 0 4) 0 = Some L1 /\
     second = u32 (0 + L1) /\
     (0 + L1 < two32 -> second = 0 + L1) /\
     load_u32 (pread two_record_container second 4) 0 = Some L2 /\
     fst (readPartitionHeaders 2 two_record_container 0 quiet_world)
       = Ret [pread two_record_container 0 L1; pread two_record_container second L2] /\
     w_trace (snd (readPartitionHeaders 2 two_record_container 0 quiet_world))
       = w_trace quiet_world ++ evs /\
     seeks evs = [0; 0; second; second]).
Proof.
  destruct (readPartitionHeader_next_offset two_record_container) as [Hone Htwo].
  split.
  - apply (Hone 0 quiet_world (pread two_record_container 0 1568) 1568
             (snd (readPartitionHeader two_record_container 0 quiet_world))).
    + vm_compute. split; [discriminate|reflexivity].
    + vm_compute. reflexivity.
  - destruct (Htwo 0 quiet_world
                [pread two_record_container 0 1568; pread two_record_container 1568 1568]
                (snd (readPartitionHeaders 2 two_record_container 0 quiet_world)))
      as (L1 & L2 & second & evs & H1 & H2 & H3 & H4 & H5 & H6 & H7).
    + vm_compute. split; [discriminate|reflexivity].
    + vm_compute. reflexivity.
    + exists L1, L2, second, evs.
      repeat (split; [assumption|]). split; [|split; assumption].
      rewrite <- H5. vm_compute. reflexivity.
Defined.

(** The second record of the two-record container is read at offset 1568,
    the length of the first. *)
Example two_records_read :
  seeks (w_trace (snd (readPartitionHeaders 2 two_record_container 0 quiet_world)))
  = [0; 0; 1568; 1568].
Proof. vm_compute. reflexivity. Qed.

(** The counterexample to C2 as stated: in a container larger than 4 GiB,
    the record found 100 bytes below the 4 GiB mark announces 2000 bytes;
    the reader succeeds and leaves the cursor at 1900, not at
    4294967196 + 2000. *)
Lemma readPartitionHeader_offset_wraps :
  exists header w',
    readPartitionHeader huge_container 4294967196 quiet_world
      = (Ret (header, 1900), w') /\
    load_u32 (pread huge_container 4294967196 4) 0 = Some 2000 /\
    1900 <> 4294967196 + 2000.
Proof.
  eexists. eexists. split; [|split].
  - vm_compute. reflexivity.
  - vm_compute. reflexivity.
  - lia.
Qed.

(** C4: a record whose [length] prefix is smaller than
    [sizeof(PartitionHeader)] is not rejected.  When the prefix and the
    [length] bytes it announces are in the container and can be allocated,
    [readPartitionHeader] returns normally with exactly those [length]
    bytes as the record and with [*curPos] advanced by [length] (modulo
    2^32); the file system is untouched and the only actions are the two
    seeks and the two reads. *)
Theorem readPartitionHeader_short_record fd curPos w length :
  0 <= curPos ->
  curPos + 4 <= fsize fd ->
  load_u32 (pread fd curPos 4) 0 = Some length ->
  length < sizeof_PartitionHeader ->
  curPos + length <= fsize fd ->
  length = 0 \/ length <= w_heap w ->
  exists w',
    readPartitionHeader fd curPos w
      = (Ret (pread fd curPos length, u32 (curPos + length)), w') /\
    Z.of_nat (List.length (pread fd curPos length)) = length /\
    w_fs w' = w_fs w /\
    w_trace w' = w_trace w ++ [ELseek curPos; ERead 4 4; ELseek curPos; ERead length length].
Proof.
  intros Hpos Hprefix Hlen Hshort Hfit Hheap.
  pose proof (load_u32_range _ _ _ Hlen) as Hrange.
  eexists. split.
  - apply readPartitionHeader_run; try assumption.
    unfold sizeof_PartitionHeader in Hshort. unfold MAX_RW_COUNT. lia.
  - split; [rewrite length_pread; lia|]. split; reflexivity.
Qed.

Lemma readPartitionHeader_short_record_witness :
  exists w',
    readPartitionHeader stub_container 0 quiet_world
      = (Ret (pread stub_container 0 8, u32 (0 + 8)), w') /\
    Z.of_nat (List.length (pread stub_container 0 8)) = 8 /\
    w_fs w' = w_fs quiet_world /\
    w_trace w' = w_trace quiet_world ++ [ELseek 0; ERead 4 4; ELseek 0; ERead 8 8].
Proof.
  apply (readPartitionHeader_short_record stub_container 0 quiet_world 8).
  - lia.
  - vm_compute. discriminate.
  - vm_compute. reflexivity.
  - vm_compute. reflexivity.
  - vm_compute. discriminate.
  - right. vm_compute. discriminate.
Defined.

(** The counterexample to C4 as stated: the 8-byte record of the stub
    container announces a length of 8, far below
    [sizeof(PartitionHeader)], and the reader returns it without any
    error. *)
Lemma readPartitionHeader_accepts_stub :
  load_u32 (pread stub_container 0 4) 0 = Some 8 /\
  8 < sizeof_PartitionHeader /\
  exists w',
    readPartitionHeader stub_container 0 quiet_world
      = (Ret ([8; 0; 0; 0; 1; 2; 3; 4], 8), w').
Proof.
  split; [vm_compute; reflexivity|]. split; [reflexivity|].
  eexists. vm_compute. reflexivity.
Qed.

(** ** The driver and the partition count *)

Lemma bind_inv {A B} (m : prog A) (k : A -> prog B) w o w' :
  bind m k w = (o, w') ->
  (exists a w1, m w = (Ret a, w1) /\ k a w1 = (o, w')) \/
  (exists o1, m w = (o1, w') /\ halted o1 o).
Proof.
  unfold bind. destruct (m w) as [[a|s| |] w1]; intros H.
  - left. exists a, w1. split; [reflexivity|assumption].
  - right. injection H as <- <-. exists (Exit s). split; reflexivity.
  - right. injection H as <- <-. exists Undef. split; reflexivity.
  - right. injection H as <- <-. exists Starved. split; reflexivity.
Qed.

(** Creating the output directory neither moves the cursor of the
    container nor seeks, and it ends by returning, by
    [exit(EXIT_FAILURE)], or in undefined behaviour. *)
Lemma ensure_directory_effect temp w o w' :
  ensure_directory temp w = (o, w') ->
  w_pos w' = w_pos w /\
  (exists evs, w_trace w' = w_trace w ++ evs /\ seeks evs = []) /\
  (o = Ret tt \/ o = Exit EXIT_FAILURE).
Proof.
  unfold ensure_directory, bind, sys_access, sys_mkdir.
  destruct (negb (String.eqb temp "") && bool_decide (is_Some (w_fs w !! temp))).
  - intros [= <- <-]. split; [reflexivity|]. split; [|left; reflexivity].
    exists []. split; [symmetry; apply app_nil_r|reflexivity].
  - destruct (negb (String.eqb temp "") && bool_decide (w_fs w !! temp = None)
              && parent_exists (w_fs w) temp).
    + intros [= <- <-]. split; [reflexivity|]. split; [|left; reflexivity].
      exists [EMkdir temp]. split; reflexivity.
    + intros [= <- <-]. split; [reflexivity|]. split; [|right; reflexivity].
      exists [EMkdir temp; EPerror "Failed to create output directory"].
      split; [|reflexivity]. cbn. rewrite <- app_assoc. reflexivity.
Qed.

Lemma createOutputDirectory_loop_effect rest : forall done w o w',
  createOutputDirectory_loop done rest w = (o, w') ->
  w_pos w' = w_pos w /\
  (exists evs, w_trace w' = w_trace w ++ evs /\ seeks evs = []) /\
  (o = Ret tt \/ o = Exit EXIT_FAILURE).
Proof.
  induction rest as [|c rest IH]; intros done w o w' Hrun; cbn in Hrun.
  - injection Hrun as <- <-. split; [reflexivity|]. split; [|left; reflexivity].
    exists []. split; [symmetry; apply app_nil_r|reflexivity].
  - apply bind_inv in Hrun as [([] & w1 & Hstep & Hrun)|(o1 & Hstep & Hhalt)].
    + assert (w_pos w1 = w_pos w /\
              exists evs, w_trace w1 = w_trace w ++ evs /\ seeks evs = [])
        as (Hpos1 & evs1 & Htrace1 & Hseeks1).
      { destruct (Ascii.eqb c slash).
        - apply ensure_directory_effect in Hstep as (? & ? & _). split; assumption.
        - injection Hstep as <-. split; [reflexivity|].
          exists []. split; [symmetry; apply app_nil_r|reflexivity]. }
      apply IH in Hrun as (Hpos2 & (evs2 & Htrace2 & Hseeks2) & Ho).
      split; [congruence|]. split; [|assumption].
      exists (evs1 ++ evs2). split.
      * rewrite Htrace2, Htrace1, app_assoc. reflexivity.
      * rewrite seeks_app, Hseeks1, Hseeks2. reflexivity.
    + destruct (Ascii.eqb c slash).
      * apply ensure_directory_effect in Hstep as (Hpos1 & Hev & [->| ->]).
        -- destruct o; contradiction.
        -- split; [assumption|]. split; [assumption|].
           right. destruct o; try contradiction. cbn in Hhalt. congruence.
      * injection Hstep as <- <-. destruct o; contradiction.
Qed.

Lemma createOutputDirectory_effect path w o w' :
  createOutputDirectory path w = (o, w') ->
  w_pos w' = w_pos w /\
  (exists evs, w_trace w' = w_trace w ++ evs /\ seeks evs = []) /\
  (o = Ret tt \/ o = Exit EXIT_FAILURE \/ o = Undef).
Proof.
  unfold createOutputDirectory.
  destruct (768 <=? Z.of_nat (String.length path)).
  - intros [= <- <-]. split; [reflexivity|]. split; [|right; right; reflexivity].
    exists []. split; [symmetry; apply app_nil_r|reflexivity].
  - intros Hrun.
    apply bind_inv in Hrun as [([] & w1 & Hloop & Hrun)|(o1 & Hloop & Hhalt)].
    + apply createOutputDirectory_loop_effect in Hloop
        as (Hpos1 & (evs1 & Htrace1 & Hseeks1) & _).
      apply ensure_directory_effect in Hrun as (Hpos2 & (evs2 & Htrace2 & Hseeks2) & Ho).
      split; [congruence|]. split; [|tauto].
      exists (evs1 ++ evs2). split.
      * rewrite Htrace2, Htrace1, app_assoc. reflexivity.
      * rewrite seeks_app, Hseeks1, Hseeks2. reflexivity.
    + apply createOutputDirectory_loop_effect in Hloop as (Hpos1 & Hev & [->| ->]).
      * destruct o; contradiction.
      * split; [assumption|]. split; [assumption|].
        right; left. destruct o; try contradiction. cbn in Hhalt. congruence.
Qed.

(** The allocation of [partHeaders] fails for a negative count: the
    product [partitionCount * sizeof(PartitionHeader * )], computed in
    [size_t], exceeds [PTRDIFF_MAX]. *)
Lemma negative_count_allocation partitionCount heap :
  -2147483648 <= partitionCount < 0 ->
  (usize (usize partitionCount * sizeof_pointer) <=? PTRDIFF_MAX)
  && ((usize (usize partitionCount * sizeof_pointer) =? 0)
      || (usize (usize partitionCount * sizeof_pointer) <=? heap)) = false.
Proof.
  intros Hcount. apply andb_false_iff. left. apply Z.leb_gt.
  unfold usize, sizeof_pointer, PTRDIFF_MAX, two64.
  replace (partitionCount mod 18446744073709551616)
    with (partitionCount + 18446744073709551616)
    by (apply Z.mod_unique with (q := -1); lia).
  replace (((partitionCount + 18446744073709551616) * 8) mod 18446744073709551616)
    with (8 * partitionCount + 18446744073709551616)
    by (apply Z.mod_unique with (q := 7); lia).
  lia.
Qed.

Lemma i32_range z : -2147483648 <= i32 z < 2147483648.
Proof.
  unfold i32, two32. pose proof (Z.mod_pos_bound z 4294967296 ltac:(lia)).
  destruct (Z.ltb_spec (z mod 4294967296) 2147483648); lia.
Qed.

Lemma load_i32_range buf off v :
  load_i32 buf off = Some v -> -2147483648 <= v < 2147483648.
Proof.
  unfold load_i32. destruct (load_u32 buf off); [|discriminate].
  intros [= <-]. apply i32_range.
Qed.

(** Whatever its outcome, one call of the reader seeks at most twice. *)
Lemma readPartitionHeader_effect fd curPos w o w' :
  readPartitionHeader fd curPos w = (o, w') ->
  exists evs, w_trace w' = w_trace w ++ evs /\ (length (seeks evs) <= 2)%nat.
Proof.
  unfold readPartitionHeader, sys_lseek, sys_read, sys_malloc, defined, undefined.
  cbv beta iota zeta delta [bind emit exit ret log set_pos fst snd].
  cbn [w_fs w_pos w_free w_heap w_trace].
  intros Hrun.
  repeat match type of Hrun with
  | context [if ?b then _ else _] => destruct b
  | context [match ?x with Some _ => _ | None => _ end] => destruct x
  end;
  cbn [w_fs w_pos w_free w_heap w_trace] in Hrun;
  injection Hrun as <- <-; cbn [w_trace]; rewrite <- ?app_assoc; cbn [app];
  (eexists; split; [reflexivity|cbn; lia]).
Qed.

(** The record-reading loop calls the reader at most [n] times (two seeks
    per call), and returns exactly [n] records when it returns. *)
Lemma readPartitionHeaders_bound n : forall fd curPos w o w',
  readPartitionHeaders n fd curPos w = (o, w') ->
  exists evs,
    w_trace w' = w_trace w ++ evs /\
    (length (seeks evs) <= 2 * n)%nat /\
    (forall headers, o = Ret headers -> length headers = n).
Proof.
  induction n as [|n IH]; intros fd curPos w o w' Hrun; cbn [readPartitionHeaders] in Hrun.
  - injection Hrun as <- <-. exists []. split; [symmetry; apply app_nil_r|].
    split; [cbn; lia|]. intros headers [= <-]. reflexivity.
  - apply bind_inv in Hrun as [(r & w1 & Hread & Hrun)|(o1 & Hread & Hhalt)].
    2:{ apply readPartitionHeader_effect in Hread as (evs & Htrace & Hseeks).
        exists evs. split; [assumption|]. split; [lia|].
        intros headers ->. destruct o1; contradiction. }
    apply readPartitionHeader_effect in Hread as (evs1 & Htrace1 & Hseeks1).
    assert (forall A (x : option A) w2 o2 (w2' : world),
               defined x w2 = (o2, w2') -> w2' = w2) as Hdefined
      by (intros A [a|] w2 o2 w2'; cbn; intros [= _ <-]; reflexivity).
    apply bind_inv in Hrun as [(partitionName & w2 & Hdef & Hrun)|(o1 & Hdef & Hhalt)].
    2:{ apply Hdefined in Hdef as ->. exists evs1. split; [assumption|]. split; [lia|].
        intros headers ->. destruct o1; contradiction. }
    apply Hdefined in Hdef as ->.
    apply bind_inv in Hrun as [(fileName & w2 & Hdef & Hrun)|(o1 & Hdef & Hhalt)].
    2:{ apply Hdefined in Hdef as ->. exists evs1. split; [assumption|]. split; [lia|].
        intros headers ->. destruct o1; contradiction. }
    apply Hdefined in Hdef as ->.
    apply bind_inv in Hrun as [(partitionSize & w2 & Hdef & Hrun)|(o1 & Hdef & Hhalt)].
    2:{ apply Hdefined in Hdef as ->. exists evs1. split; [assumption|]. split; [lia|].
        intros headers ->. destruct o1; contradiction. }
    apply Hdefined in Hdef as ->.
    apply bind_inv in Hrun as [([] & w2 & Hemit & Hrun)|(o1 & Hemit & Hhalt)].
    2:{ unfold emit in Hemit. injection Hemit as <- <-. contradiction. }
    unfold emit in Hemit. injection Hemit as <-.
    apply bind_inv in Hrun as [(rest & w3 & Hrest & Hrun)|(o1 & Hrest & Hhalt)].
    + apply IH in Hrest as (evs2 & Htrace2 & Hseeks2 & Hlen).
      unfold ret in Hrun. injection Hrun as <- <-.
      eexists. split; [|split].
      * rewrite Htrace2. cbn [log w_trace]. rewrite Htrace1, <- !app_assoc. reflexivity.
      * rewrite !seeks_app, !length_app. cbn. lia.
      * intros headers [= <-]. cbn. f_equal. apply Hlen. reflexivity.
    + apply IH in Hrest as (evs2 & Htrace2 & Hseeks2 & _).
      eexists. split; [|split].
      * rewrite Htrace2. cbn [log w_trace]. rewrite Htrace1, <- !app_assoc. reflexivity.
      * rewrite !seeks_app, !length_app. cbn. lia.
      * intros headers ->. destruct o1; contradiction.
Qed.

Lemma openFirmwareFile_run path fd w :
  w_fs w !! path = Some (Reg fd) ->
  openFirmwareFile path w = (Ret fd, set_pos 0 w).
Proof.
  intros Hfile. unfold openFirmwareFile, bind, sys_open. rewrite Hfile. reflexivity.
Qed.

Lemma defined_inv {A} (x : option A) w (o : outcome A) w' :
  defined x w = (o, w') ->
  w' = w /\ (o = Undef \/ exists a, x = Some a /\ o = Ret a).
Proof.
  destruct x as [a|]; cbn; intros [= <- <-]; split; try reflexivity.
  - right. exists a. split; reflexivity.
  - left. reflexivity.
Qed.

(** The run of [main] on a container whose header holds a negative
    [partitionCount]. *)
Lemma extract_command_negative_count argv w fd partitionCount o w' :
  w_fs w !! arg argv 2 = Some (Reg fd) ->
  load_i32 (pread fd 0 sizeof_PacHeader) off_partitionCount = Some partitionCount ->
  partitionCount < 0 ->
  extract_command argv w = (o, w') ->
  o <> Undef ->
  o = Exit EXIT_FAILURE /\
  exists evs, w_trace w' = w_trace w ++ evs /\ seeks evs = [].
Proof.
  intros Hfile Hcount Hneg Hrun Hdef.
  pose proof (load_i32_range _ _ _ Hcount) as Hrange.
  unfold extract_command in Hrun. unfold bind at 1 in Hrun.
  rewrite (openFirmwareFile_run _ _ _ Hfile) in Hrun.
  destruct (usize (i32 (fsize fd)) <? sizeof_PacHeader).
  { cbv beta iota zeta delta [bind emit sys_close exit log set_pos] in Hrun.
    cbn [w_fs w_pos w_free w_heap w_trace] in Hrun. injection Hrun as <- <-.
    split; [reflexivity|]. eexists.
    split; [cbn [w_trace]; rewrite <- app_assoc; reflexivity|reflexivity]. }
  apply bind_inv in Hrun as [([] & w1 & Hdir & Hrun)|(o1 & Hdir & Hhalt)].
  2:{ apply createOutputDirectory_effect in Hdir as (_ & Hev & [->|[->| ->]]);
        destruct o; try contradiction.
      cbn in Hhalt. subst. split; [reflexivity|exact Hev]. }
  apply createOutputDirectory_effect in Hdir as (Hpos1 & (evs1 & Htrace1 & Hseeks1) & _).
  cbn [set_pos w_pos w_trace] in Hpos1, Htrace1.
  apply bind_inv in Hrun as [(pacHeader & w2 & Hhdr & Hrun)|(o1 & Hhdr & Hhalt)].
  2:{ unfold readPacHeader, sys_read in Hhdr.
      cbv beta iota zeta delta [bind emit exit ret log set_pos fst snd] in Hhdr.
      cbn [w_fs w_pos w_free w_heap w_trace] in Hhdr.
      match type of Hhdr with
      | context [if ?b then _ else _] => destruct b
      end; injection Hhdr as <- <-; [|contradiction].
      destruct o; try contradiction. cbn in Hhalt. subst.
      split; [reflexivity|]. eexists. split.
      - cbn [w_trace]. rewrite Htrace1, <- !app_assoc. reflexivity.
      - rewrite seeks_app, Hseeks1. reflexivity. }
  unfold readPacHeader, sys_read in Hhdr.
  cbv beta iota zeta delta [bind emit exit ret log set_pos fst snd] in Hhdr.
  cbn [w_fs w_pos w_free w_heap w_trace] in Hhdr.
  match type of Hhdr with
  | context [if negb (?a =? ?b) then _ else _] => destruct (Z.eqb_spec a b) as [Hgot|]
  end; cbn [negb] in Hhdr; [|discriminate].
  injection Hhdr as <- <-. rewrite Hgot, Hpos1 in Hrun.
  apply bind_inv in Hrun as [(firmwareName & w3 & Hname & Hrun)|(o1 & Hname & Hhalt)].
  2:{ apply defined_inv in Hname as [_ [->|(a & _ & ->)]]; destruct o; contradiction || congruence. }
  apply defined_inv in Hname as [-> _].
  apply bind_inv in Hrun as [([] & w3 & Hemit & Hrun)|(o1 & Hemit & Hhalt)].
  2:{ unfold emit in Hemit. injection Hemit as <- <-. contradiction. }
  unfold emit in Hemit. injection Hemit as <-.
  apply bind_inv in Hrun as [(start & w3 & Hstart & Hrun)|(o1 & Hstart & Hhalt)].
  2:{ apply defined_inv in Hstart as [_ [->|(a & _ & ->)]]; destruct o; contradiction || congruence. }
  apply defined_inv in Hstart as [-> _].
  apply bind_inv in Hrun as [(count & w3 & Hc & Hrun)|(o1 & Hc & Hhalt)].
  2:{ apply defined_inv in Hc as [_ [->|(a & _ & ->)]]; destruct o; contradiction || congruence. }
  apply defined_inv in Hc as [-> [?|(a & Ha & [= <-])]]; [discriminate|].
  rewrite Hcount in Ha. injection Ha as <-.
  unfold bind at 1, sys_malloc at 1 in Hrun.
  rewrite negative_count_allocation in Hrun by lia. cbn [negb] in Hrun.
  cbv beta iota zeta delta [bind emit sys_close exit log set_pos] in Hrun.
  cbn [w_fs w_pos w_free w_heap w_trace] in Hrun. injection Hrun as <- <-.
  split; [reflexivity|]. eexists. split.
  - cbn [w_trace]. rewrite Htrace1, <- !app_assoc. reflexivity.
  - rewrite seeks_app, Hseeks1. reflexivity.
Qed.

(** C5: when the header's [partitionCount] is negative, [main] ends with
    [exit(EXIT_FAILURE)] before any partition record is sought or read (no
    [lseek] occurs, and the reader starts with one): the allocation of the
    record table, whose size is computed from the count in [size_t], fails
    and is reported.  Runs that met undefined behaviour before that point
    (an output path that overflows [temp], a firmware name without
    terminator) are set aside.  In general the record-reading loop calls the reader
    at most [max(0, partitionCount)] times, two seeks per call, and yields
    exactly that many records when it returns. *)
Theorem partitionCount_guards_walk :
  (forall prog path out rest w fd partitionCount o w',
     w_fs w !! path = Some (Reg fd) ->
     load_i32 (pread fd 0 sizeof_PacHeader) off_partitionCount = Some partitionCount ->
     partitionCount < 0 ->
     main (prog :: "-e"%string :: path :: "-o"%string :: out :: rest) w = (o, w') ->
     o <> Undef ->
     o = Exit EXIT_FAILURE /\
     exists evs, w_trace w' = w_trace w ++ evs /\ seeks evs = []) /\
  (forall partitionCount fd curPos w o w',
     readPartitionHeaders (Z.to_nat partitionCount) fd curPos w = (o, w') ->
     exists evs,
       w_trace w' = w_trace w ++ evs /\
       Z.of_nat (length (seeks evs)) <= 2 * Z.max 0 partitionCount /\
       (forall headers, o = Ret headers ->
          Z.of_nat (length headers) = Z.max 0 partitionCount)).
Proof.
  split.
  - intros prog path out rest w fd partitionCount o w' Hfile Hcount Hneg Hrun Hdef.
    rewrite main_extract in Hrun.
    apply (extract_command_negative_count
             (prog :: "-e"%string :: path :: "-o"%string :: out :: rest)
             w fd partitionCount o w');
      [exact Hfile|assumption..].
  - intros partitionCount fd curPos w o w' Hrun.
    apply readPartitionHeaders_bound in Hrun as (evs & Htrace & Hseeks & Hlen).
    exists evs. split; [assumption|]. split; [lia|].
    intros headers Ho. rewrite (Hlen headers Ho). lia.
Qed.

Lemma partitionCount_guards_walk_witness :
  fst (main ["pacextractor"; "-e"; "fw.pac"; "-o"; "out"]%string negative_count_world)
    = Exit EXIT_FAILURE /\
  exists evs,
    w_trace (snd (main ["pacextractor"; "-e"; "fw.pac"; "-o"; "out"]%string
                    negative_count_world))
      = w_trace negative_count_world ++ evs /\
    seeks evs = [].
Proof.
  apply (proj1 partitionCount_guards_walk "pacextractor" "fw.pac" "out" []
           negative_count_world negative_count_container (-1)
           (fst (main ["pacextractor"; "-e"; "fw.pac"; "-o"; "out"]%string
                   negative_count_world))
           (snd (main ["pacextractor"; "-e"; "fw.pac"; "-o"; "out"]%string
                   negative_count_world)))%string.
  - reflexivity.
  - vm_compute. reflexivity.
  - lia.
  - destruct (main ["pacextractor"; "-e"; "fw.pac"; "-o"; "out"]%string
                negative_count_world). reflexivity.
  - vm_compute. discriminate.
Defined.

(** The run on the container with [partitionCount = -1], evaluated. *)
Example negative_count_run :
  let r := main ["pacextractor"; "-e"; "fw.pac"; "-o"; "out"]%string
             negative_count_world in
  fst r = Exit EXIT_FAILURE /\
  w_trace (snd r) =
    [EMkdir "out"; ERead 1220 1220; EPrintf "Firmware name: %s\n" [PStr ""];
     EPerror "Memory allocation failed for partition headers"; EClose].
Proof. vm_compute. split; reflexivity. Qed.

(** * Further properties of the program *)

(** ** String decoding *)

Lemma getString_loop_unterminated us : forall resString out,
  Forall (fun c => c <> 0) us -> getString_loop us resString out = None.
Proof.
  induction us as [|c us IH]; intros resString out Hnz; cbn; [reflexivity|].
  inversion Hnz as [|? ? Hc Hus]; subst.
  destruct (Z.eqb_spec c 0) as [|_]; [contradiction|].
  replace (resString + 1 - (resString + 1)) with 0 by lia. cbn.
  apply IH. assumption.
Qed.

(** Every sequence of code units is a run of non-zero units, followed or
    not by a zero unit. *)
Lemma split_at_zero (l : list Z) :
  Forall (fun c => c <> 0) l \/
  exists us tl, l = us ++ 0 :: tl /\ Forall (fun c => c <> 0) us.
Proof.
  induction l as [|c l IH].
  - left. constructor.
  - destruct (Z.eq_dec c 0) as [->|Hc].
    + right. exists [], l. split; [reflexivity|constructor].
    + destruct IH as [Hall|(us & tl & -> & Hus)].
      * left. constructor; assumption.
      * right. exists (c :: us), tl. split; [reflexivity|constructor; assumption].
Qed.

Lemma low_byte_ascii c : 0 <= c < 256 -> low_byte c = c.
Proof.
  intros Hc. unfold low_byte. change 255 with (Z.ones 8).
  rewrite Z.land_ones by lia. apply Z.mod_small. lia.
Qed.

(** X1: [getString] stops at the first zero code unit and stores the low
    byte of every unit before it, followed by the terminator; what comes
    after the zero unit is never looked at.  When the units are in
    [1, 255] (ASCII, Latin-1) the stored bytes are the units themselves. *)
Theorem getString_decodes_to_first_zero us tl :
  Forall (fun c => c <> 0) us ->
  getString (Some (us ++ 0 :: tl)) = Some ((low_byte <$> us) ++ [0]) /\
  (Forall (fun c => 0 < c < 256) us ->
   getString (Some (us ++ 0 :: tl)) = Some (us ++ [0])).
Proof.
  intros Hnz. assert (getString (Some (us ++ 0 :: tl)) = Some ((low_byte <$> us) ++ [0])) as H.
  { cbn. rewrite getString_loop_run by assumption. reflexivity. }
  split; [exact H|]. intros Hascii. rewrite H. do 2 f_equal.
  clear H Hnz. induction Hascii as [|c us Hc _ IH]; cbn; [reflexivity|].
  rewrite low_byte_ascii by lia. f_equal. exact IH.
Qed.

Lemma c_string_nonzero l : Forall (fun b => b <> 0) l -> c_string l = l.
Proof.
  induction 1 as [|b l Hb _ IH]; cbn; [reflexivity|].
  destruct (Z.eqb_spec b 0) as [|_]; [contradiction|]. rewrite IH. reflexivity.
Qed.

(** The C string ends at the first zero byte. *)
Lemma c_string_first_zero l tl :
  Forall (fun b => b <> 0) l -> c_string (l ++ 0 :: tl) = l.
Proof.
  induction 1 as [|b l Hb _ IH]; cbn; [reflexivity|].
  destruct (Z.eqb_spec b 0) as [|_]; [contradiction|]. rewrite IH. reflexivity.
Qed.

Lemma c_string_terminated l : c_string (l ++ [0]) = c_string l.
Proof.
  induction l as [|b l IH]; cbn; [reflexivity|].
  destruct (b =? 0); [reflexivity|]. rewrite IH. reflexivity.
Qed.

(** X2: decoding a field into a destination of [cap] bytes is defined
    exactly when the field's object holds a zero code unit after fewer than
    [cap] non-zero units.  The string that [printf] and [snprintf] then
    read from the destination is made of the low bytes of those units, up
    to the first low byte that is zero: a non-zero unit such as 0x0100
    cuts the string short.  Without a zero unit the call reads past the
    object, and with [cap] or more units before it the destination
    overflows. *)
Theorem decode_field_defined_iff buf off cap s :
  decode_field buf off cap = Some s <->
  exists us tl,
    field_units buf off = us ++ 0 :: tl /\
    Forall (fun c => c <> 0) us /\
    Z.of_nat (length us) < cap /\
    s = string_of_bytes (c_string (low_byte <$> us)).
Proof.
  unfold decode_field, getString. split.
  - destruct (split_at_zero (field_units buf off)) as [Hall|(us & tl & Heq & Hus)].
    + rewrite getString_loop_unterminated by assumption. discriminate.
    + rewrite Heq, getString_loop_run by assumption. cbn [app].
      rewrite length_app, length_fmap. cbn [length].
      destruct (Z.leb_spec (Z.of_nat (length us + 1)) cap); [|discriminate].
      intros [= <-]. exists us, tl. split; [reflexivity|]. split; [assumption|].
      split; [lia|]. rewrite c_string_terminated. reflexivity.
  - intros (us & tl & Heq & Hus & Hcap & ->).
    rewrite Heq, getString_loop_run by assumption. cbn [app].
    rewrite length_app, length_fmap. cbn [length].
    destruct (Z.leb_spec (Z.of_nat (length us + 1)) cap); [|lia].
    rewrite c_string_terminated. reflexivity.
Qed.

(** ** Command line *)

Lemma printUsageAndExit_run {A} w :
  @printUsageAndExit A w = (Exit EXIT_FAILURE, logs usage_events w).
Proof. unfold printUsageAndExit, bind. rewrite printUsage_run. reflexivity. Qed.

(** X3: a command line with fewer than four arguments after the program
    name, or one that is none of [-h], [-v] and [-e ... -o ...], makes
    [main] print the usage text and exit with [EXIT_FAILURE]; nothing else
    happens. *)
Theorem main_usage_error argv w :
  (length argv < 5)%nat \/ recognised argv = false ->
  main argv w = (Exit EXIT_FAILURE, logs usage_events w).
Proof.
  intros Hbad. unfold main.
  destruct (Z.ltb_spec (Z.of_nat (length argv)) 5) as [|Hlen].
  - apply printUsageAndExit_run.
  - destruct Hbad as [|Hrec]; [lia|]. unfold recognised in Hrec.
    apply orb_false_iff in Hrec as [Hrec He]. apply orb_false_iff in Hrec as [Hh Hv].
    rewrite Hh, Hv, He. apply printUsageAndExit_run.
Qed.

(** X4: with at least four arguments after the program name, [-h]
    prints the usage text and [-v] prints the version, and both exit with
    [EXIT_SUCCESS] without touching any file. *)
Theorem main_help_and_version argv w :
  (5 <= length argv)%nat ->
  (arg argv 1 = "-h"%string ->
   main argv w = (Exit EXIT_SUCCESS, logs usage_events w)) /\
  (arg argv 1 = "-v"%string ->
   main argv w
   = (Exit EXIT_SUCCESS,
      logs [EPrintf "pacextractor version %s\n" [PStr "1.1.0"]] w)).
Proof.
  intros Hlen. unfold main.
  destruct (Z.ltb_spec (Z.of_nat (length argv)) 5) as [|_]; [lia|].
  split; intros ->; cbn [String.eqb Ascii.eqb Bool.eqb].
  - unfold bind. rewrite printUsage_run. reflexivity.
  - reflexivity.
Qed.

(** X5: when the container named after [-e] does not exist, [main]
    reports the path with [perror] and exits with [EXIT_FAILURE] before the
    output directory is looked at: the file system is unchanged. *)
Theorem main_missing_container argv w :
  (5 <= length argv)%nat ->
  arg argv 1 = "-e"%string -> arg argv 3 = "-o"%string ->
  w_fs w !! arg argv 2 = None ->
  main argv w = (Exit EXIT_FAILURE, logs [EPerror (arg argv 2)] w).
Proof.
  intros Hlen He Ho Hmissing. unfold main.
  destruct (Z.ltb_spec (Z.of_nat (length argv)) 5) as [|_]; [lia|].
  rewrite He, Ho. cbn [String.eqb Ascii.eqb Bool.eqb andb].
  unfold extract_command, openFirmwareFile, sys_open.
  unfold bind at 1. unfold bind at 1. rewrite Hmissing. reflexivity.
Qed.

(** ** Creating the output directory *)

Lemma ensure_directory_cases temp w o w' :
  ensure_directory temp w = (o, w') ->
  (o = Ret tt /\ w' = w /\ temp <> ""%string /\ is_Some (w_fs w !! temp)) \/
  (o = Ret tt /\ w' = log (EMkdir temp) (set_fs (<[temp := Dir]> (w_fs w)) w) /\
   temp <> ""%string /\ w_fs w !! temp = None) \/
  (o = Exit EXIT_FAILURE /\
   w' = logs [EMkdir temp; EPerror "Failed to create output directory"] w).
Proof.
  unfold ensure_directory, bind, sys_access, sys_mkdir.
  destruct (String.eqb_spec temp "") as [->|Hne]; cbn [negb andb].
  - intros [= <- <-]. right. right. split; [reflexivity|].
    unfold logs, log. cbn. rewrite <- app_assoc. reflexivity.
  - case_bool_decide as Hsome.
    + intros [= <- <-]. left. repeat split; assumption.
    + case_bool_decide as Hnone; cbn [andb].
      * destruct (parent_exists (w_fs w) temp).
        -- intros [= <- <-]. right. left. repeat split; assumption.
        -- intros [= <- <-]. right. right. split; [reflexivity|].
           unfold logs, log. cbn. rewrite <- app_assoc. reflexivity.
      * intros [= <- <-]. right. right. split; [reflexivity|].
        unfold logs, log. cbn. rewrite <- app_assoc. reflexivity.
Qed.

(** X6: [createOutputDirectory] fails on the empty path and on every path
    that starts with a slash: the first prefix it tests is the empty
    string, which [access] does not find and [mkdir] cannot make, so the
    program exits with [EXIT_FAILURE] having created nothing. *)
Theorem createOutputDirectory_rooted_path_fails path w :
  (String.length path < 768)%nat ->
  path = ""%string \/ (exists rest, path = String slash rest) ->
  createOutputDirectory path w
  = (Exit EXIT_FAILURE,
     logs [EMkdir ""; EPerror "Failed to create output directory"] w).
Proof.
  intros Hlen Hpath. unfold createOutputDirectory.
  destruct (Z.leb_spec 768 (Z.of_nat (String.length path))) as [|_]; [lia|].
  assert (ensure_directory "" w
          = (Exit EXIT_FAILURE,
             logs [EMkdir ""; EPerror "Failed to create output directory"] w)) as Hroot.
  { destruct (ensure_directory "" w) as [o w'] eqn:Hrun.
    apply ensure_directory_cases in Hrun
      as [(_ & _ & Hne & _)|[(_ & _ & Hne & _)|(-> & ->)]]; congruence. }
  destruct Hpath as [->|(rest & ->)].
  - cbn [createOutputDirectory_loop]. unfold bind, ret. exact Hroot.
  - cbn [createOutputDirectory_loop]. rewrite Ascii.eqb_refl.
    unfold bind. rewrite Hroot. reflexivity.
Qed.

Lemma grows_refl fs : grows_by_directories fs fs.
Proof. split; [reflexivity|]. intros q nd H. left. exact H. Qed.

Lemma grows_trans fs1 fs2 fs3 :
  grows_by_directories fs1 fs2 -> grows_by_directories fs2 fs3 ->
  grows_by_directories fs1 fs3.
Proof.
  intros [Hsub1 Hnew1] [Hsub2 Hnew2]. split; [etrans; eassumption|].
  intros q nd H. destruct (Hnew2 q nd H) as [H2| ->]; [|right; reflexivity].
  apply Hnew1. exact H2.
Qed.

Lemma ensure_directory_grows temp w o w' :
  ensure_directory temp w = (o, w') ->
  grows_by_directories (w_fs w) (w_fs w') /\
  (o = Ret tt -> temp <> ""%string /\ is_Some (w_fs w' !! temp)).
Proof.
  intros Hrun. apply ensure_directory_cases in Hrun
    as [(-> & -> & Hne & Hsome)|[(-> & -> & Hne & Hnone)|(-> & ->)]].
  - split; [apply grows_refl|]. intros _. split; assumption.
  - cbn [log set_fs w_fs]. split.
    + split; [apply insert_subseteq; assumption|].
      intros q nd. destruct (decide (temp = q)) as [<-|Hq].
      * rewrite lookup_insert_eq. intros [= <-]. right. reflexivity.
      * rewrite lookup_insert_ne by assumption. intros H. left. exact H.
    + intros _. split; [assumption|]. rewrite lookup_insert_eq. eauto.
  - split; [apply grows_refl|]. discriminate.
Qed.

Lemma createOutputDirectory_loop_grows rest : forall done w o w',
  createOutputDirectory_loop done rest w = (o, w') ->
  grows_by_directories (w_fs w) (w_fs w').
Proof.
  induction rest as [|c rest IH]; intros done w o w' Hrun; cbn in Hrun.
  - injection Hrun as <- <-. apply grows_refl.
  - apply bind_inv in Hrun as [([] & w1 & Hstep & Hrun)|(o1 & Hstep & _)].
    + eapply grows_trans; [|eapply IH; exact Hrun].
      destruct (Ascii.eqb c slash).
      * eapply ensure_directory_grows. exact Hstep.
      * injection Hstep as <-. apply grows_refl.
    + destruct (Ascii.eqb c slash).
      * eapply ensure_directory_grows. exact Hstep.
      * injection Hstep as <- <-. apply grows_refl.
Qed.

(** X7: whatever its outcome, [createOutputDirectory] keeps every entry
    of the file system as it was and adds nothing but directories; when it
    returns, the path it was given exists. *)
Theorem createOutputDirectory_only_adds_directories path w o w' :
  createOutputDirectory path w = (o, w') ->
  w_fs w ⊆ w_fs w' /\
  (forall q nd, w_fs w' !! q = Some nd -> w_fs w !! q = Some nd \/ nd = Dir) /\
  (o = Ret tt -> is_Some (w_fs w' !! path)).
Proof.
  unfold createOutputDirectory.
  destruct (768 <=? Z.of_nat (String.length path)).
  - intros [= <- <-]. split; [reflexivity|]. split; [auto|discriminate].
  - intros Hrun.
    apply bind_inv in Hrun as [([] & w1 & Hloop & Hrun)|(o1 & Hloop & Hhalt)].
    + apply createOutputDirectory_loop_grows in Hloop.
      apply ensure_directory_grows in Hrun as [Hgrow Hret].
      destruct (grows_trans _ _ _ Hloop Hgrow) as [Hsub Hnew].
      split; [assumption|]. split; [assumption|]. intros Ho. apply Hret. assumption.
    + apply createOutputDirectory_loop_grows in Hloop as [Hsub Hnew].
      split; [assumption|]. split; [assumption|].
      intros ->. destruct o1; contradiction.
Qed.

Lemma ensure_directory_present temp w :
  temp <> ""%string -> is_Some (w_fs w !! temp) ->
  ensure_directory temp w = (Ret tt, w).
Proof.
  intros Hne Hsome. unfold ensure_directory, bind, sys_access.
  destruct (String.eqb_spec temp "") as [|_]; [contradiction|].
  rewrite bool_decide_eq_true_2 by assumption. reflexivity.
Qed.

Lemma createOutputDirectory_loop_repeat rest : forall done w w' w2,
  createOutputDirectory_loop done rest w = (Ret tt, w') ->
  w_fs w' ⊆ w_fs w2 ->
  createOutputDirectory_loop done rest w2 = (Ret tt, w2).
Proof.
  induction rest as [|c rest IH]; intros done w w' w2 Hrun Hsub; cbn in *.
  - reflexivity.
  - apply bind_ret_inv in Hrun as ([] & w1 & Hstep & Hrest).
    pose proof (createOutputDirectory_loop_grows _ _ _ _ _ Hrest) as [Hsub1 _].
    assert ((if Ascii.eqb c slash then ensure_directory done else ret tt) w2
            = (Ret tt, w2)) as Hstep2.
    { destruct (Ascii.eqb c slash); [|reflexivity].
      apply ensure_directory_grows in Hstep as [_ Hret].
      destruct (Hret eq_refl) as [Hne Hsome].
      apply ensure_directory_present; [assumption|].
      eapply lookup_weaken_is_Some; [exact Hsome|]. etrans; eassumption. }
    unfold bind. rewrite Hstep2. eapply IH; eassumption.
Qed.

(** X8: once [createOutputDirectory] has returned for a path, calling it
    again for that path, in the resulting world or in any world that still
    holds the entries it left, returns without any [mkdir] and without any
    change. *)
Theorem createOutputDirectory_idempotent path w w' w2 :
  createOutputDirectory path w = (Ret tt, w') ->
  w_fs w' ⊆ w_fs w2 ->
  createOutputDirectory path w2 = (Ret tt, w2).
Proof.
  unfold createOutputDirectory.
  destruct (768 <=? Z.of_nat (String.length path)); [discriminate|].
  intros Hrun Hsub.
  apply bind_ret_inv in Hrun as ([] & w1 & Hloop & Hlast).
  apply ensure_directory_grows in Hlast as [[Hsub1 _] Hret].
  destruct (Hret eq_refl) as [Hne Hsome].
  unfold bind.
  rewrite (createOutputDirectory_loop_repeat _ _ _ _ w2 Hloop)
    by (etrans; eassumption).
  apply ensure_directory_present; [assumption|].
  eapply lookup_weaken_is_Some; eassumption.
Qed.

(** ** Reading partition records *)

Lemma pread_4 fd pos :
  pread fd pos 4
  = [fbyte fd pos; fbyte fd (pos + 1); fbyte fd (pos + 2); fbyte fd (pos + 3)].
Proof.
  unfold pread. rewrite (seqZ_cons pos 4) by lia.
  rewrite (seqZ_cons (Z.succ pos)) by lia.
  rewrite (seqZ_cons (Z.succ (Z.succ pos))) by lia.
  rewrite (seqZ_cons (Z.succ (Z.succ (Z.succ pos)))) by lia.
  rewrite seqZ_nil by lia. cbn.
  repeat f_equal; lia.
Qed.

Lemma load_u32_prefix fd pos :
  exists length, load_u32 (pread fd pos 4) 0 = Some length.
Proof. rewrite pread_4. eexists. reflexivity. Qed.

(** The reader leaves the file system alone and ends by returning or by
    [exit(EXIT_FAILURE)]. *)
Lemma readPartitionHeader_cases fd curPos w o w' :
  readPartitionHeader fd curPos w = (o, w') ->
  w_fs w' = w_fs w /\ ((exists r, o = Ret r) \/ o = Exit EXIT_FAILURE).
Proof.
  unfold readPartitionHeader, sys_lseek, sys_read, sys_malloc.
  cbv beta iota zeta delta [bind emit exit ret log set_pos fst snd].
  cbn [w_fs w_pos w_free w_heap w_trace].
  match goal with
  | |- context [negb (?a =? 4)] => destruct (Z.eqb_spec a 4) as [->|]
  end; cbn [negb].
  2:{ intros [= <- <-]. split; [reflexivity|right; reflexivity]. }
  destruct (load_u32_prefix fd curPos) as (length & ->). cbn [defined].
  unfold ret.
  intros Hrun.
  repeat match type of Hrun with
  | context [if ?b then _ else _] => destruct b
  end;
  cbn [w_fs w_pos w_free w_heap w_trace] in Hrun;
  injection Hrun as <- <-; (split; [reflexivity|]); eauto.
Qed.

(** X9: when the container ends before the 4-byte prefix at [curPos], or
    before the [length] bytes that the prefix announces, the reader ends
    with [exit(EXIT_FAILURE)]: no record is returned and the file system is
    untouched. *)
Theorem readPartitionHeader_truncated fd curPos w :
  0 <= curPos ->
  fsize fd < curPos + 4 \/
  (exists length,
     load_u32 (pread fd curPos 4) 0 = Some length /\ fsize fd < curPos + length) ->
  exists w',
    readPartitionHeader fd curPos w = (Exit EXIT_FAILURE, w') /\
    w_fs w' = w_fs w.
Proof.
  intros Hpos Hshort.
  destruct (readPartitionHeader fd curPos w) as [o w'] eqn:Hrun.
  pose proof (readPartitionHeader_cases _ _ _ _ _ Hrun) as [Hfs [([header next] & ->)| ->]].
  - exfalso.
    apply readPartitionHeader_ret_inv in Hrun
      as (length & Hlen & _ & _ & Hprefix & Hfit & _); [|assumption].
    destruct Hshort as [|(length' & Hlen' & Hpast)]; [lia|].
    rewrite Hlen in Hlen'. injection Hlen' as <-. lia.
  - exists w'. split; [reflexivity|assumption].
Qed.

Lemma load_u32_app4 b0 b1 b2 b3 rest :
  load_u32 ([b0; b1; b2; b3] ++ rest) 0 = load_u32 [b0; b1; b2; b3] 0.
Proof. reflexivity. Qed.

(** X10: the record returned by [readPartitionHeader] has exactly as
    many bytes as the prefix announced; when that is at least 4, the
    record's own [length] field (its first field, read again with the
    record) holds that same value, and when it is less than 4 the record
    is too short to hold the field at all. *)
Theorem readPartitionHeader_length_field fd curPos w header next w' :
  0 <= curPos ->
  readPartitionHeader fd curPos w = (Ret (header, next), w') ->
  exists length,
    load_u32 (pread fd curPos 4) 0 = Some length /\
    Z.of_nat (List.length header) = length /\
    (4 <= length -> load_u32 header off_length = Some length) /\
    (length < 4 -> load_u32 header off_length = None).
Proof.
  intros Hpos Hrun.
  apply readPartitionHeader_ret_inv in Hrun
    as (length & Hlen & -> & _ & _ & _ & _ & _); [|assumption].
  pose proof (load_u32_range _ _ _ Hlen) as Hrange.
  exists length. split; [assumption|]. split; [rewrite length_pread; lia|]. split.
  - intros Hbig. replace length with (4 + (length - 4)) at 1 by lia.
    rewrite pread_app by lia. rewrite pread_4 in *.
    unfold off_length. rewrite load_u32_app4. exact Hlen.
  - intros Hsmall. unfold load_u32, from_offset, off_length. cbn [Z.to_nat drop].
    assert (List.length (pread fd curPos length) < 4)%nat as Hshort
      by (rewrite length_pread; lia).
    destruct (pread fd curPos length) as [|b0 [|b1 [|b2 [|b3 ?]]]]; cbn in Hshort;
      try reflexivity; lia.
Qed.

Lemma readPartitionHeaders_is_walk n : forall fd curPos w headers w',
  0 <= curPos ->
  readPartitionHeaders n fd curPos w = (Ret headers, w') ->
  headers = walk n fd curPos /\ length headers = n.
Proof.
  induction n as [|n IH]; intros fd curPos w headers w' Hpos Hrun.
  - cbn in Hrun. injection Hrun as <- <-. split; reflexivity.
  - apply readPartitionHeaders_S_inv in Hrun
      as (length & rest & w1 & args & Hlen & -> & _ & Hrest); [|assumption].
    pose proof (u32_range (curPos + length)) as Hnext.
    apply IH in Hrest as [-> Hn]; [|lia].
    cbn [walk]. rewrite Hlen. split; [reflexivity|]. cbn. f_equal. exact Hn.
Qed.

(** X11: the records returned by the record-reading loop depend on the
    container and the start offset only: they are the [n] length-prefixed
    records laid out one after the other from [curPos], each starting
    where the previous one ends (modulo 2^32).  Reading them leaves the
    file system as it was. *)
Theorem readPartitionHeaders_walk n fd curPos w headers w' :
  0 <= curPos ->
  readPartitionHeaders n fd curPos w = (Ret headers, w') ->
  headers = walk n fd curPos /\ length headers = n /\ w_fs w' = w_fs w.
Proof.
  intros Hpos Hrun.
  destruct (readPartitionHeaders_is_walk n fd curPos w headers w' Hpos Hrun) as [Hwalk Hlen].
  split; [assumption|]. split; [assumption|]. clear Hwalk Hlen.
  revert curPos w headers w' Hpos Hrun.
  induction n as [|n IH]; intros curPos w headers w' Hpos Hrun;
    cbn [readPartitionHeaders] in Hrun.
  - injection Hrun as _ <-. reflexivity.
  - apply bind_ret_inv in Hrun as ([header next] & w1 & Hread & Hrun).
    apply readPartitionHeader_ret_inv in Hread
      as (length & _ & _ & -> & _ & _ & Hfs1 & _); [|assumption].
    cbn [fst snd] in Hrun.
    apply bind_ret_inv in Hrun as (partitionName & w2 & Hdef & Hrun).
    apply defined_ret_inv in Hdef as [_ ->].
    apply bind_ret_inv in Hrun as (fileName & w2 & Hdef & Hrun).
    apply defined_ret_inv in Hdef as [_ ->].
    apply bind_ret_inv in Hrun as (partitionSize & w2 & Hdef & Hrun).
    apply defined_ret_inv in Hdef as [_ ->].
    apply bind_ret_inv in Hrun as ([] & w2 & Hemit & Hrun).
    unfold emit in Hemit. injection Hemit as <-.
    apply bind_ret_inv in Hrun as (rest & w3 & Hrest & Hrun).
    unfold ret in Hrun. injection Hrun as _ <-.
    apply IH in Hrest; [|pose proof (u32_range (curPos + length)); lia].
    rewrite Hrest. cbn [log w_fs]. exact Hfs1.
Qed.

(** ** Extraction of one partition, whatever its outcome *)

Lemma sys_remove_cases path w r w' :
  sys_remove path w = (Ret r, w') ->
  w_pos w' = w_pos w /\ w_free w' = w_free w /\
  w_trace w' = w_trace w ++ [ERemove path] /\
  (((fst r =? -1) && negb (snd r =? ENOENT) = false /\
    w_fs w' = delete path (w_fs w)) \/
   ((fst r =? -1) && negb (snd r =? ENOENT) = true /\ w_fs w' = w_fs w /\
    w_fs w !! path = Some Dir)).
Proof.
  unfold sys_remove.
  destruct (w_fs w !! path) as [[|f]|] eqn:Hlook;
    [destruct (dir_empty (w_fs w) path)| |];
    intros [= <- <-]; repeat (split; [reflexivity|]).
  - left. split; reflexivity.
  - right. repeat split; reflexivity.
  - left. split; reflexivity.
  - left. split; [reflexivity|]. cbn. rewrite delete_id by assumption. reflexivity.
Qed.

Lemma sys_creat_cases path w b w' :
  sys_creat path w = (Ret b, w') ->
  w_pos w' = w_pos w /\ w_free w' = w_free w /\
  w_trace w' = w_trace w ++ [ECreat path] /\
  if b then w_fs w' = <[path := Reg (Bytes [])]> (w_fs w) else w_fs w' = w_fs w.
Proof.
  unfold sys_creat.
  destruct (w_fs w !! path) as [[|f]|];
    [|destruct (parent_exists (w_fs w) path && negb (ends_with_slash path))..];
    intros [= <- <-]; repeat split; reflexivity.
Qed.

(** The ways [extractPartition] can go: it stops before the destination
    is created, or it reaches the streaming loop. *)
Lemma extractPartition_cases fd partHeader outputPath w o w' :
  extractPartition fd partHeader outputPath w = (o, w') ->
  (((o = Ret tt /\ load_u32 partHeader off_partitionSize = Some 0 /\ w' = w) \/
    o = Exit EXIT_FAILURE \/ o = Undef) /\
   (exists evs, w_trace w' = w_trace w ++ evs /\ reads evs = [] /\
                writes evs = [] /\ reports evs = []) /\
   (w_fs w' = w_fs w \/
    exists fileName,
      decode_field partHeader off_fileName 512 = Some fileName /\
      w_fs w' = delete (outputFilePath outputPath fileName) (w_fs w))) \/
  (exists partitionSize partitionAddrInPac fileName w1 o1 w2,
     load_u32 partHeader off_partitionSize = Some partitionSize /\
     partitionSize <> 0 /\
     load_u32 partHeader off_partitionAddrInPac = Some partitionAddrInPac /\
     decode_field partHeader off_fileName 512 = Some fileName /\
     let path := outputFilePath outputPath fileName in
     w_pos w1 = partitionAddrInPac /\
     w_fs w1 = <[path := Reg (Bytes [])]> (w_fs w) /\
     w_trace w1 = w_trace w ++ [ELseek partitionAddrInPac; ERemove path; ECreat path;
                                EPrintf "Extracting to %s\n" [PStr path]] /\
     extractPartition_loop (loop_fuel partitionSize) fd path partitionSize
       (partitionSize, 0) w1 = (o1, w2) /\
     ((o1 = Ret tt /\ o = Ret tt /\ w' = logs [EPrintf "\n" []; EClose] w2) \/
      (halted o1 o /\ w' = w2))).
Proof.
  intros Hrun. unfold extractPartition in Hrun.
  assert (forall evs, reads evs = [] -> writes evs = [] -> reports evs = [] ->
            exists evs', w_trace w ++ evs = w_trace w ++ evs' /\ reads evs' = [] /\
                         writes evs' = [] /\ reports evs' = []) as Hquiet
    by (intros evs H1 H2 H3; exists evs; auto).
  apply bind_inv in Hrun as [(partitionSize & w0 & Hdef & Hrun)|(o1 & Hdef & Hhalt)].
  2:{ apply defined_inv in Hdef as [-> [->|(a & _ & ->)]]; [|contradiction].
      left. destruct o; try contradiction. split; [auto|].
      split; [exists []; rewrite app_nil_r; auto|left; reflexivity]. }
  apply defined_inv in Hdef as [-> [?|(a & Hsize & [= <-])]]; [discriminate|].
  destruct (Z.eqb_spec partitionSize 0) as [->|Hnz].
  { injection Hrun as <- <-. left. split; [left; auto|].
    split; [exists []; rewrite app_nil_r; auto|left; reflexivity]. }
  apply bind_inv in Hrun as [(addr & w0 & Hdef & Hrun)|(o1 & Hdef & Hhalt)].
  2:{ apply defined_inv in Hdef as [-> [->|(a & _ & ->)]]; [|contradiction].
      left. destruct o; try contradiction. split; [auto|].
      split; [exists []; rewrite app_nil_r; auto|left; reflexivity]. }
  apply defined_inv in Hdef as [-> [?|(a & Haddr & [= <-])]]; [discriminate|].
  apply bind_inv in Hrun as [([] & w0 & Hseek & Hrun)|(o1 & Hseek & Hhalt)].
  2:{ unfold sys_lseek in Hseek. injection Hseek as <- <-. contradiction. }
  unfold sys_lseek in Hseek. injection Hseek as <-.
  apply bind_inv in Hrun as [(buffer & w0 & Hmalloc & Hrun)|(o1 & Hmalloc & Hhalt)].
  2:{ unfold sys_malloc in Hmalloc. injection Hmalloc as <- <-. contradiction. }
  unfold sys_malloc in Hmalloc. injection Hmalloc as <- <-.
  match type of Hrun with
  | (if negb ?b then _ else _) _ = _ => destruct b; cbn [negb] in Hrun
  end.
  2:{ cbv beta iota zeta delta [bind emit exit log set_pos] in Hrun.
      cbn [w_fs w_pos w_free w_heap w_trace] in Hrun. injection Hrun as <- <-.
      left. split; [auto|]. split; [|left; reflexivity].
      cbn [w_trace]. rewrite <- app_assoc. apply Hquiet; reflexivity. }
  apply bind_inv in Hrun as [(fileName & w0 & Hdef & Hrun)|(o1 & Hdef & Hhalt)].
  2:{ apply defined_inv in Hdef as [-> [->|(a & _ & ->)]]; [|contradiction].
      left. destruct o; try contradiction. split; [auto|].
      split; [|left; reflexivity]. cbn [log set_pos w_trace]. apply Hquiet; reflexivity. }
  apply defined_inv in Hdef as [-> [?|(a & Hname & [= <-])]]; [discriminate|].
  set (path := outputFilePath outputPath fileName) in *.
  apply bind_inv in Hrun as [(r & w3 & Hremove & Hrun)|(o1 & Hremove & Hhalt)].
  2:{ unfold sys_remove in Hremove.
      destruct (w_fs _ !! path) as [[|f]|]; [destruct (dir_empty _ path)| |];
        injection Hremove as <- <-; contradiction. }
  apply sys_remove_cases in Hremove as (Hpos3 & Hfree3 & Htrace3 & Hremoved).
  cbn [log set_pos w_pos w_fs w_free w_trace] in Hpos3, Hfree3, Htrace3, Hremoved.
  destruct Hremoved as [[Hgo Hfs3]|[Hgo [Hfs3 _]]]; rewrite Hgo in Hrun.
  2:{ cbv beta iota zeta delta [bind emit exit log] in Hrun.
      injection Hrun as <- <-. left. split; [auto|]. split; [|left; exact Hfs3].
      cbn [w_trace]. rewrite Htrace3, <- !app_assoc. apply Hquiet; reflexivity. }
  apply bind_inv in Hrun as [(fd_new & w4 & Hcreat & Hrun)|(o1 & Hcreat & Hhalt)].
  2:{ unfold sys_creat in Hcreat.
      destruct (w_fs w3 !! path) as [[|f]|];
        [|destruct (parent_exists _ path && negb (ends_with_slash path))..];
        injection Hcreat as <- <-; contradiction. }
  apply sys_creat_cases in Hcreat as (Hpos4 & Hfree4 & Htrace4 & Hfs4).
  destruct fd_new; cbn [negb] in Hrun.
  2:{ cbv beta iota zeta delta [bind emit exit log] in Hrun.
      injection Hrun as <- <-. left. split; [auto|].
      split; [|right; exists fileName; split; [assumption|cbn [w_fs]; rewrite Hfs4; exact Hfs3]].
      cbn [w_trace]. rewrite Htrace4, Htrace3, <- !app_assoc. apply Hquiet; reflexivity. }
  apply bind_inv in Hrun as [([] & w5 & Hemit & Hrun)|(o1 & Hemit & Hhalt)].
  2:{ unfold emit in Hemit. injection Hemit as <- <-. contradiction. }
  unfold emit in Hemit. injection Hemit as <-.
  right. exists partitionSize, addr, fileName, (log (EPrintf "Extracting to %s\n" [PStr path]) w4).
  apply bind_inv in Hrun as [([] & w6 & Hloop & Hrun)|(o1 & Hloop & Hhalt)].
  - exists (Ret tt), w6.
    repeat (split; [assumption|]). cbn zeta. fold path.
    split; [cbn; congruence|].
    split; [cbn; rewrite Hfs4, Hfs3; apply insert_delete_eq|].
    split; [cbn; rewrite Htrace4, Htrace3, <- !app_assoc; reflexivity|].
    split; [exact Hloop|]. left.
    cbv beta iota zeta delta [bind emit sys_close log] in Hrun.
    injection Hrun as <- <-. split; [reflexivity|]. split; [reflexivity|].
    unfold logs. cbn. rewrite <- app_assoc. reflexivity.
  - exists o1, w'.
    repeat (split; [assumption|]). cbn zeta. fold path.
    split; [cbn; congruence|].
    split; [cbn; rewrite Hfs4, Hfs3; apply insert_delete_eq|].
    split; [cbn; rewrite Htrace4, Htrace3, <- !app_assoc; reflexivity|].
    split; [exact Hloop|]. right. split; [assumption|reflexivity].
Qed.

Lemma loop_run_outcome total left done o k evs :
  loop_run total left done o k evs -> o = Ret tt \/ o = Exit EXIT_FAILURE.
Proof. induction 1; auto. Qed.

Lemma loop_run_io_bound total left done o k evs :
  loop_run total left done o k evs ->
  Forall (fun r => 0 < fst r <= BUFFER_SIZE /\ snd r <= fst r) (reads evs) /\
  Forall (fun r => 0 < fst r <= BUFFER_SIZE /\ snd r <= fst r) (writes evs).
Proof.
  induction 1 as [done|left done o k evs Hl Hrun [IHr IHw]|left done got Hl Hg|left done put Hl Hp];
    try pose proof (chunk_bounds left Hl) as [Hc Hb].
  - split; constructor.
  - rewrite !reads_cons, !writes_cons.
    split; (constructor; [cbn; lia|assumption]).
  - split; [|constructor]. repeat constructor; cbn; lia.
  - split; repeat constructor; cbn; lia.
Qed.

(** The streaming loop of an extraction that reached it, summed up. *)
Lemma extraction_loop_sound fd path partitionSize w1 o1 w2 :
  0 < partitionSize < two32 ->
  w_fs w1 !! path = Some (Reg (Bytes [])) ->
  extractPartition_loop (loop_fuel partitionSize) fd path partitionSize
    (partitionSize, 0) w1 = (o1, w2) ->
  exists k evs,
    loop_run partitionSize partitionSize 0 o1 k evs /\
    w_trace w2 = w_trace w1 ++ evs /\
    w_fs w2 = <[path := Reg (Bytes (pread fd (w_pos w1) k))]> (w_fs w1).
Proof.
  intros Hsize Hfile Hloop.
  apply loop_sound in Hloop; [|lia|apply loop_fuel_enough; lia|lia|lia].
  destruct Hloop as (k & evs & Hruns & Htrace & Hfs & _).
  exists k, evs. split; [assumption|]. split; [assumption|].
  apply (Hfs [] Hfile).
Qed.

(** X12: whatever its outcome, [extractPartition] leaves every file other
    than its destination exactly as it was.  The file system is keyed by
    path names, one key for each file, so this is stated for paths that
    name files one to one: the destination (the path [snprintf] leaves in
    [outputFilePath]) and the other path [q] are canonical relative paths,
    without empty component, [.] or [..]. *)
Theorem extractPartition_touches_only_destination
    fd partHeader outputPath fileName w o w' q :
  decode_field partHeader off_fileName 512 = Some fileName ->
  canonical (outputFilePath outputPath fileName) = true ->
  canonical q = true ->
  q <> outputFilePath outputPath fileName ->
  extractPartition fd partHeader outputPath w = (o, w') ->
  w_fs w' !! q = w_fs w !! q.
Proof.
  intros Hdecoded _ _ Hother Hrun.
  assert (forall name,
            decode_field partHeader off_fileName 512 = Some name ->
            q <> outputFilePath outputPath name) as Hq.
  { intros name Hname. assert (name = fileName) as -> by congruence.
    assumption. }
  apply extractPartition_cases in Hrun
    as [(_ & _ & [->|(name & Hname & ->)])
       |(size & addr & name & w1 & o1 & w2 & Hsize & Hnz & _ & Hname & Hrest)].
  - reflexivity.
  - apply lookup_delete_ne. apply not_eq_sym. apply Hq. assumption.
  - cbn zeta in Hrest. destruct Hrest as (_ & Hfs1 & _ & Hloop & Hend).
    pose proof (load_u32_range _ _ _ Hsize) as Hrange.
    apply extraction_loop_sound in Hloop as (k & evs & _ & _ & Hfs2);
      [|lia|rewrite Hfs1; apply lookup_insert_eq].
    assert (w_fs w' = w_fs w2) as -> by (destruct Hend as [(_ & _ & ->)|[_ ->]]; reflexivity).
    rewrite Hfs2, Hfs1.
    rewrite !lookup_insert_ne by (apply not_eq_sym; apply Hq; assumption).
    reflexivity.
Qed.

(** X13: whatever its outcome, [extractPartition] never asks [read] or
    [write] for more than [BUFFER_SIZE] bytes (the size of its buffer) nor
    for zero bytes, no call transfers more than it asked for, and every
    call of [printProgressBar] has [0 < completed <= total], so that the
    bar's quotient lies in (0, 1]. *)
Theorem extractPartition_io_within_buffer fd partHeader outputPath w o w' :
  extractPartition fd partHeader outputPath w = (o, w') ->
  exists evs,
    w_trace w' = w_trace w ++ evs /\
    Forall (fun r => 0 < fst r <= BUFFER_SIZE /\ snd r <= fst r) (reads evs) /\
    Forall (fun r => 0 < fst r <= BUFFER_SIZE /\ snd r <= fst r) (writes evs) /\
    Forall (fun r => 0 < fst r <= snd r) (reports evs).
Proof.
  intros Hrun.
  apply extractPartition_cases in Hrun
    as [(_ & (evs & Htrace & Hr & Hw & Hp) & _)
       |(size & addr & fileName & w1 & o1 & w2 & Hsize & Hnz & _ & Hname & Hrest)].
  - exists evs. rewrite Hr, Hw, Hp. repeat split; try assumption; constructor.
  - cbn zeta in Hrest. destruct Hrest as (_ & Hfs1 & Htrace1 & Hloop & Hend).
    pose proof (load_u32_range _ _ _ Hsize) as Hrange.
    apply extraction_loop_sound in Hloop as (k & evs & Hruns & Htrace2 & _);
      [|lia|rewrite Hfs1; apply lookup_insert_eq].
    destruct (loop_run_io_bound _ _ _ _ _ _ Hruns) as [Hreads Hwrites].
    destruct (loop_run_reports _ _ _ _ _ _ Hruns) as (Hreports & _ & _); [lia|lia|].
    assert (Forall (fun r => 0 < fst r <= snd r) (reports evs)) as Hreports'
      by (eapply Forall_impl; [exact Hreports|]; cbn; intros r [-> Hr]; lia).
    destruct Hend as [(_ & _ & ->)|[_ ->]].
    + eexists. split.
      * cbn [logs w_trace]. rewrite Htrace2, Htrace1, <- !app_assoc. reflexivity.
      * rewrite !reads_app, !writes_app.
        unfold reports. rewrite !omap_app. fold (reports evs).
        cbn. rewrite !app_nil_r. auto.
    + eexists. split.
      * rewrite Htrace2, Htrace1, <- !app_assoc. reflexivity.
      * rewrite !reads_app, !writes_app.
        unfold reports. rewrite !omap_app. fold (reports evs).
        cbn. auto.
Qed.

Lemma chunk_count_step n :
  0 < n -> chunk_count n = 1 + chunk_count (n - chunk n).
Proof.
  intros Hn. unfold chunk_count, chunk, BUFFER_SIZE.
  destruct (Z.le_gt_cases n (256 * 1024)) as [Hsmall|Hbig].
  - rewrite Z.min_l by lia. replace (n - n + 256 * 1024 - 1) with (256 * 1024 - 1) by lia.
    rewrite (Z.div_small (256 * 1024 - 1)) by lia.
    symmetry. apply Z.div_unique with (r := n - 1); lia.
  - rewrite Z.min_r by lia.
    replace (n + 256 * 1024 - 1) with (1 * (256 * 1024) + (n - 256 * 1024 + 256 * 1024 - 1)) by lia.
    rewrite Z.div_add_l by lia. reflexivity.
Qed.

Lemma chunked_measure n cs :
  chunked n cs ->
  Z.of_nat (length cs) = chunk_count n /\ total_bytes cs = n.
Proof.
  induction 1 as [|n cs Hn _ [IHlen IHsum]].
  - split; reflexivity.
  - split.
    + rewrite (chunk_count_step n Hn). cbn [length]. lia.
    + cbn. unfold total_bytes in IHsum. lia.
Qed.

Lemma loop_run_report_count total left done o k evs :
  loop_run total left done o k evs -> o = Ret tt ->
  length (reports evs) = length (reads evs).
Proof.
  induction 1 as [done|left done o k evs Hl Hrun IH| |]; intros Ho; try discriminate.
  - reflexivity.
  - rewrite !reports_cons, !reads_cons. cbn. f_equal. apply IH. assumption.
Qed.

(** X14: an extraction that returns has made exactly
    [ceil(partitionSize / 256 KiB)] reads, as many writes and as many
    progress reports, and the writes add up to [partitionSize] bytes
    (none of them for an empty partition). *)
Theorem extractPartition_chunk_count fd partHeader outputPath w w' partitionSize :
  load_u32 partHeader off_partitionSize = Some partitionSize ->
  extractPartition fd partHeader outputPath w = (Ret tt, w') ->
  exists evs,
    w_trace w' = w_trace w ++ evs /\
    Z.of_nat (length (reads evs)) = chunk_count partitionSize /\
    Z.of_nat (length (writes evs)) = chunk_count partitionSize /\
    Z.of_nat (length (reports evs)) = chunk_count partitionSize /\
    total_bytes (snd <$> writes evs) = partitionSize.
Proof.
  intros Hsize Hrun. destruct (Z.eq_dec partitionSize 0) as [->|Hnz].
  - unfold extractPartition, bind, defined in Hrun. rewrite Hsize in Hrun.
    cbn in Hrun. injection Hrun as <-.
    exists []. rewrite app_nil_r. repeat split.
  - pose proof (load_u32_range _ _ _ Hsize) as Hrange.
    destruct (extractPartition_success _ _ _ _ _ _ Hsize Hnz Hrun)
      as (addr & fileName & w1 & w2 & _ & _ & _ & Hfile & Htrace1 & Hloop & ->).
    cbn zeta in *.
    apply extraction_loop_sound in Hloop as (k & evs & Hruns & Htrace2 & _);
      [|lia|assumption].
    destruct (loop_run_success_io _ _ _ _ _ Hruns) as (cs & Hcs & Hreads & Hwrites).
    pose proof (loop_run_report_count _ _ _ _ _ _ Hruns eq_refl) as Hcount.
    destruct (chunked_measure _ _ Hcs) as [Hlen Hsum].
    eexists. split.
    + cbn [logs w_trace]. rewrite Htrace2, Htrace1, <- !app_assoc. reflexivity.
    + rewrite !reads_app, !writes_app.
      unfold reports. rewrite !omap_app. fold (reports evs).
      cbn. rewrite !app_nil_r, Hcount, Hreads, Hwrites, !length_fmap.
      repeat (split; [assumption|]).
      rewrite <- list_fmap_compose. cbn. rewrite list_fmap_id. exact Hsum.
Qed.

(** The file system after an extraction that streamed and returned. *)
Lemma extractPartition_result_fs fd partHeader outputPath w w' partitionSize :
  load_u32 partHeader off_partitionSize = Some partitionSize ->
  partitionSize <> 0 ->
  extractPartition fd partHeader outputPath w = (Ret tt, w') ->
  exists partitionAddrInPac fileName,
    load_u32 partHeader off_partitionAddrInPac = Some partitionAddrInPac /\
    decode_field partHeader off_fileName 512 = Some fileName /\
    w_fs w' = <[outputFilePath outputPath fileName :=
                  Reg (Bytes (pread fd partitionAddrInPac partitionSize))]> (w_fs w).
Proof.
  intros Hsize Hnz Hrun.
  pose proof (load_u32_range _ _ _ Hsize) as Hrange.
  apply extractPartition_cases in Hrun
    as [([(_ & Hzero & _)|[|]] & _ & _)
       |(size & addr & fileName & w1 & o1 & w2 & Hsize' & _ & Haddr & Hname & Hrest)].
  - exfalso. congruence.
  - discriminate.
  - discriminate.
  - cbn zeta in Hrest. destruct Hrest as (Hpos1 & Hfs1 & _ & Hloop & Hend).
    assert (size = partitionSize) as -> by congruence.
    destruct Hend as [(-> & _ & ->)|[Hhalt _]]; [|destruct o1; contradiction].
    apply extraction_loop_sound in Hloop as (k & evs & Hruns & _ & Hfs2);
      [|lia|rewrite Hfs1; apply lookup_insert_eq].
    pose proof (loop_run_bytes _ _ _ _ _ _ Hruns) as (_ & Hk & _).
    rewrite (Hk eq_refl), Hpos1, Hfs1, insert_insert_eq in Hfs2.
    exists addr, fileName. repeat (split; [assumption|]). exact Hfs2.
Qed.

(** X15: extracting the same record twice in a row leaves the file
    system as the first extraction left it: the second run removes the
    file and writes it again with the same content. *)
Theorem extractPartition_twice fd partHeader outputPath w w1 w2 :
  extractPartition fd partHeader outputPath w = (Ret tt, w1) ->
  extractPartition fd partHeader outputPath w1 = (Ret tt, w2) ->
  w_fs w2 = w_fs w1.
Proof.
  intros Hfirst Hsecond.
  destruct (load_u32 partHeader off_partitionSize) as [partitionSize|] eqn:Hsize.
  2:{ unfold extractPartition, bind in Hfirst. rewrite Hsize in Hfirst. discriminate. }
  destruct (Z.eq_dec partitionSize 0) as [->|Hnz].
  - unfold extractPartition, bind in Hsecond. rewrite Hsize in Hsecond.
    cbn in Hsecond. injection Hsecond as <-. reflexivity.
  - destruct (extractPartition_result_fs _ _ _ _ _ _ Hsize Hnz Hfirst)
      as (addr & fileName & Haddr & Hname & Hfs1).
    destruct (extractPartition_result_fs _ _ _ _ _ _ Hsize Hnz Hsecond)
      as (addr' & fileName' & Haddr' & Hname' & Hfs2).
    assert (addr' = addr) as -> by congruence.
    assert (fileName' = fileName) as -> by congruence.
    rewrite Hfs2, Hfs1. apply insert_insert_eq.
Qed.

(** X16: when the destination path is a directory that is not empty,
    [extractPartition] ends with [exit(EXIT_FAILURE)] after the failed
    [remove]: nothing is created or written and the file system is
    unchanged. *)
Theorem extractPartition_destination_directory fd partHeader outputPath w
    partitionSize partitionAddrInPac fileName :
  load_u32 partHeader off_partitionSize = Some partitionSize ->
  partitionSize <> 0 ->
  load_u32 partHeader off_partitionAddrInPac = Some partitionAddrInPac ->
  decode_field partHeader off_fileName 512 = Some fileName ->
  BUFFER_SIZE <= w_heap w ->
  w_fs w !! outputFilePath outputPath fileName = Some Dir ->
  dir_empty (w_fs w) (outputFilePath outputPath fileName) = false ->
  exists w',
    extractPartition fd partHeader outputPath w = (Exit EXIT_FAILURE, w') /\
    w_fs w' = w_fs w /\
    w_trace w' = w_trace w ++
      [ELseek partitionAddrInPac; ERemove (outputFilePath outputPath fileName);
       EPerror "Error removing existing output file"].
Proof.
  intros Hsize Hnz Haddr Hname Hheap Hdir Hfull.
  unfold extractPartition. unfold bind at 1. rewrite Hsize. cbn [defined ret].
  destruct (Z.eqb_spec partitionSize 0) as [|_]; [contradiction|].
  unfold bind at 1. rewrite Haddr. cbn [defined ret].
  unfold bind at 1, sys_lseek at 1. unfold bind at 1, sys_malloc at 1.
  replace (BUFFER_SIZE <=? PTRDIFF_MAX) with true by reflexivity.
  replace (BUFFER_SIZE <=? w_heap (log (ELseek partitionAddrInPac)
                                     (set_pos partitionAddrInPac w)))
    with true by (symmetry; apply Z.leb_le; exact Hheap).
  rewrite orb_true_r. cbn [andb negb].
  unfold bind at 1. rewrite Hname. cbn [defined ret].
  unfold bind at 1, sys_remove at 1. cbn [log set_pos w_fs].
  rewrite Hdir, Hfull. cbn [fst snd Z.eqb andb negb].
  eexists. split; [reflexivity|]. split; [reflexivity|].
  cbn. rewrite <- !app_assoc. reflexivity.
Qed.

(** ** Exit statuses *)

Lemma extractPartition_outcome fd partHeader outputPath w o w' :
  extractPartition fd partHeader outputPath w = (o, w') ->
  o = Ret tt \/ o = Exit EXIT_FAILURE \/ o = Undef.
Proof.
  intros Hrun.
  apply extractPartition_cases in Hrun
    as [([(-> & _)|[->| ->]] & _)
       |(size & addr & fileName & w1 & o1 & w2 & Hsize & Hnz & _ & _ & Hrest)]; auto.
  cbn zeta in Hrest. destruct Hrest as (_ & Hfs1 & _ & Hloop & Hend).
  pose proof (load_u32_range _ _ _ Hsize) as Hrange.
  apply extraction_loop_sound in Hloop as (k & evs & Hruns & _ & _);
    [|lia|rewrite Hfs1; apply lookup_insert_eq].
  destruct Hend as [(_ & -> & _)|[Hhalt _]]; [auto|].
  destruct (loop_run_outcome _ _ _ _ _ _ Hruns) as [->| ->];
    destruct o; try contradiction.
  cbn in Hhalt. subst. auto.
Qed.

Lemma extractPartitions_outcome fd outputPath partHeaders : forall w o w',
  extractPartitions fd partHeaders outputPath w = (o, w') ->
  o = Ret tt \/ o = Exit EXIT_FAILURE \/ o = Undef.
Proof.
  induction partHeaders as [|header rest IH]; intros w o w' Hrun; cbn in Hrun.
  - injection Hrun as <- <-. auto.
  - apply bind_inv in Hrun as [([] & w1 & _ & Hrest)|(o1 & Hone & Hhalt)].
    + eapply IH. exact Hrest.
    + apply extractPartition_outcome in Hone as [->|[->| ->]];
        destruct o; try contradiction; auto.
      cbn in Hhalt. subst. auto.
Qed.

Lemma readPartitionHeaders_outcome n : forall fd curPos w o w',
  readPartitionHeaders n fd curPos w = (o, w') ->
  (exists headers, o = Ret headers) \/ o = Exit EXIT_FAILURE \/ o = Undef.
Proof.
  induction n as [|n IH]; intros fd curPos w o w' Hrun; cbn [readPartitionHeaders] in Hrun.
  - injection Hrun as <- <-. eauto.
  - apply bind_inv in Hrun as [(r & w1 & Hread & Hrun)|(o1 & Hread & Hhalt)].
    2:{ apply readPartitionHeader_cases in Hread as [_ [(r & ->)| ->]];
          destruct o; try contradiction. cbn in Hhalt. subst. auto. }
    apply bind_inv in Hrun as [(partitionName & w2 & Hdef & Hrun)|(o1 & Hdef & Hhalt)].
    2:{ apply defined_inv in Hdef as [_ [->|(a & _ & ->)]];
          destruct o; try contradiction; auto. }
    apply bind_inv in Hrun as [(fileName & w3 & Hdef2 & Hrun)|(o1 & Hdef2 & Hhalt)].
    2:{ apply defined_inv in Hdef2 as [_ [->|(a & _ & ->)]];
          destruct o; try contradiction; auto. }
    apply bind_inv in Hrun as [(partitionSize & w4 & Hdef3 & Hrun)|(o1 & Hdef3 & Hhalt)].
    2:{ apply defined_inv in Hdef3 as [_ [->|(a & _ & ->)]];
          destruct o; try contradiction; auto. }
    apply bind_inv in Hrun as [([] & w5 & Hemit & Hrun)|(o1 & Hemit & Hhalt)].
    2:{ unfold emit in Hemit. injection Hemit as <- <-. contradiction. }
    apply bind_inv in Hrun as [(rest & w6 & Hrest & Hrun)|(o1 & Hrest & Hhalt)].
    + unfold ret in Hrun. injection Hrun as <- <-. eauto.
    + apply IH in Hrest as [(headers & ->)|[->| ->]];
        destruct o; try contradiction; auto.
      cbn in Hhalt. subst. auto.
Qed.

Lemma readPacHeader_cases fd w o w' :
  readPacHeader fd w = (o, w') ->
  (exists pacHeader, o = Ret pacHeader) \/ o = Exit EXIT_FAILURE.
Proof.
  unfold readPacHeader, sys_read.
  cbv beta iota zeta delta [bind emit exit ret log set_pos fst snd].
  match goal with
  | |- context [if ?b then _ else _] => destruct b
  end; intros [= <- <-]; eauto.
Qed.

Ltac stop :=
  match goal with
  | Hstop : forall A (o1 : outcome A), _ -> halted o1 _ -> _, Hhalt : halted _ _ |- _ =>
      first [ apply (Hstop _ _ (or_introl eq_refl) Hhalt)
            | apply (Hstop _ _ (or_intror eq_refl) Hhalt) ]
  end.

(** X17: [main] ends with status 0 or 1 only: it returns
    [EXIT_SUCCESS], or calls [exit] with [EXIT_SUCCESS] or [EXIT_FAILURE],
    unless it runs into undefined behaviour; the streaming loop never runs
    out of fuel. *)
Theorem main_exit_status argv w o w' :
  main argv w = (o, w') ->
  o = Ret EXIT_SUCCESS \/ o = Exit EXIT_SUCCESS \/ o = Exit EXIT_FAILURE \/ o = Undef.
Proof.
  unfold main.
  destruct (Z.of_nat (length argv) <? 5).
  { rewrite printUsageAndExit_run. intros [= <- <-]. auto. }
  destruct (String.eqb (arg argv 1) "-h").
  { unfold bind. rewrite printUsage_run. intros [= <- <-]. auto. }
  destruct (String.eqb (arg argv 1) "-v").
  { intros [= <- <-]. auto. }
  destruct (String.eqb (arg argv 1) "-e" && String.eqb (arg argv 3) "-o").
  2:{ rewrite printUsageAndExit_run. intros [= <- <-]. auto. }
  unfold extract_command. intros Hrun.
  assert (forall A (o1 : outcome A),
            o1 = Exit EXIT_FAILURE \/ o1 = Undef -> halted o1 o ->
            o = Ret EXIT_SUCCESS \/ o = Exit EXIT_SUCCESS \/ o = Exit EXIT_FAILURE \/ o = Undef)
    as Hstop.
  { intros A o1 [->| ->] Hhalt; destruct o; try contradiction; auto.
    cbn in Hhalt. subst. auto. }
  apply bind_inv in Hrun as [(fd & w1 & Hopen & Hrun)|(o1 & Hopen & Hhalt)].
  2:{ unfold openFirmwareFile, sys_open, bind in Hopen.
      destruct (w_fs w !! arg argv 2) as [[|f]|]; injection Hopen as <- <-;
        try contradiction; stop. }
  destruct (usize (i32 (fsize fd)) <? sizeof_PacHeader).
  { cbv beta iota zeta delta [bind emit sys_close exit log] in Hrun.
    injection Hrun as <- <-. auto. }
  apply bind_inv in Hrun as [([] & w2 & Hdir & Hrun)|(o1 & Hdir & Hhalt)].
  2:{ apply createOutputDirectory_effect in Hdir as (_ & _ & [->|[->| ->]]);
        [destruct o; contradiction|stop..]. }
  apply bind_inv in Hrun as [(pacHeader & w3 & Hhdr & Hrun)|(o1 & Hhdr & Hhalt)].
  2:{ apply readPacHeader_cases in Hhdr as [(p & ->)| ->];
        [destruct o; contradiction|stop]. }
  apply bind_inv in Hrun as [(firmwareName & w4 & Hdef & Hrun)|(o1 & Hdef & Hhalt)].
  2:{ apply defined_inv in Hdef as [_ [->|(a & _ & ->)]];
        [stop|destruct o; contradiction]. }
  apply bind_inv in Hrun as [([] & w5 & Hemit & Hrun)|(o1 & Hemit & Hhalt)].
  2:{ unfold emit in Hemit. injection Hemit as <- <-. destruct o; contradiction. }
  apply bind_inv in Hrun as [(start & w6 & Hdef2 & Hrun)|(o1 & Hdef2 & Hhalt)].
  2:{ apply defined_inv in Hdef2 as [_ [->|(a & _ & ->)]];
        [stop|destruct o; contradiction]. }
  apply bind_inv in Hrun as [(count & w7 & Hdef3 & Hrun)|(o1 & Hdef3 & Hhalt)].
  2:{ apply defined_inv in Hdef3 as [_ [->|(a & _ & ->)]];
        [stop|destruct o; contradiction]. }
  apply bind_inv in Hrun as [(ok & w8 & Hmalloc & Hrun)|(o1 & Hmalloc & Hhalt)].
  2:{ unfold sys_malloc in Hmalloc. injection Hmalloc as <- <-. destruct o; contradiction. }
  destruct ok; cbn [negb] in Hrun.
  2:{ cbv beta iota zeta delta [bind emit sys_close exit log] in Hrun.
      injection Hrun as <- <-. auto. }
  apply bind_inv in Hrun as [(headers & w9 & Hread & Hrun)|(o1 & Hread & Hhalt)].
  2:{ apply readPartitionHeaders_outcome in Hread as [(hs & ->)|[->| ->]];
        [destruct o; contradiction|stop..]. }
  apply bind_inv in Hrun as [([] & w10 & Hextract & Hrun)|(o1 & Hextract & Hhalt)].
  2:{ apply extractPartitions_outcome in Hextract as [->|[->| ->]];
        [destruct o; contradiction|stop..]. }
  cbv beta iota zeta delta [bind emit sys_close ret log] in Hrun.
  injection Hrun as <- <-. auto.
Qed.

(** X18: a container that passes the size check of [main] holds at least
    [sizeof(PacHeader)] bytes, and [readPacHeader] at offset 0 then returns
    exactly its first [sizeof(PacHeader)] bytes: the failure branch of
    [readPacHeader] cannot be taken after the check. *)
Theorem header_read_after_size_check fd w :
  (usize (i32 (fsize fd)) <? sizeof_PacHeader) = false ->
  w_pos w = 0 ->
  sizeof_PacHeader <= fsize fd /\
  readPacHeader fd w
  = (Ret (pread fd 0 sizeof_PacHeader),
     log (ERead sizeof_PacHeader sizeof_PacHeader) (set_pos sizeof_PacHeader w)).
Proof.
  intros Hcheck Hpos. apply Z.ltb_ge in Hcheck.
  pose proof (fsize_nonneg fd) as Hnn.
  assert (sizeof_PacHeader <= fsize fd) as Hsize.
  { unfold sizeof_PacHeader in *. unfold usize, i32, two32, two64 in Hcheck.
    pose proof (Z.mod_pos_bound (fsize fd) 4294967296 ltac:(lia)) as Hm.
    pose proof (Z.mod_le (fsize fd) 4294967296 Hnn ltac:(lia)) as Hle.
    destruct (Z.ltb_spec (fsize fd mod 4294967296) 2147483648) as [Hlow|Hhigh].
    - rewrite Z.mod_small in Hcheck by lia. lia.
    - lia. }
  split; [assumption|].
  unfold readPacHeader, bind, sys_read. rewrite Hpos. cbn [fst snd].
  replace (Z.min sizeof_PacHeader (Z.min MAX_RW_COUNT (Z.max 0 (fsize fd - 0))))
    with sizeof_PacHeader by (unfold sizeof_PacHeader, MAX_RW_COUNT in *; lia).
  rewrite Z.eqb_refl. cbn [negb]. unfold ret.
  replace (0 + sizeof_PacHeader) with sizeof_PacHeader by lia. reflexivity.
Qed.

(** ** The driver as a whole *)

(** X19: when [main] returns, its status is [EXIT_SUCCESS], the header's
    [partitionCount] is not negative, and the partitions extracted are, in
    order, the [partitionCount] records laid out one after the other from
    [partitionsListStart]; the run ends by closing the container. *)
Theorem main_success_extracts_walk argv w s w' :
  main argv w = (Ret s, w') ->
  s = EXIT_SUCCESS /\
  exists fd partitionsListStart partitionCount w1 w2,
    w_fs w !! arg argv 2 = Some (Reg fd) /\
    load_i32 (pread fd 0 sizeof_PacHeader) off_partitionsListStart
      = Some partitionsListStart /\
    load_i32 (pread fd 0 sizeof_PacHeader) off_partitionCount = Some partitionCount /\
    0 <= partitionCount /\
    extractPartitions fd
      (walk (Z.to_nat partitionCount) fd (u32 partitionsListStart))
      (arg argv 4) w1 = (Ret tt, w2) /\
    w' = log EClose w2.
Proof.
  unfold main.
  destruct (Z.of_nat (length argv) <? 5).
  { rewrite printUsageAndExit_run. discriminate. }
  destruct (String.eqb (arg argv 1) "-h").
  { unfold bind. rewrite printUsage_run. discriminate. }
  destruct (String.eqb (arg argv 1) "-v"); [discriminate|].
  destruct (String.eqb (arg argv 1) "-e" && String.eqb (arg argv 3) "-o").
  2:{ rewrite printUsageAndExit_run. discriminate. }
  unfold extract_command. intros Hrun.
  apply bind_ret_inv in Hrun as (fd & w1 & Hopen & Hrun).
  assert (w_fs w !! arg argv 2 = Some (Reg fd) /\ w1 = set_pos 0 w) as [Hfile ->].
  { unfold openFirmwareFile, sys_open, bind in Hopen.
    destruct (w_fs w !! arg argv 2) as [[|f]|]; try discriminate.
    injection Hopen as <- <-. split; reflexivity. }
  destruct (usize (i32 (fsize fd)) <? sizeof_PacHeader); [discriminate|].
  apply bind_ret_inv in Hrun as ([] & w2 & Hdir & Hrun).
  apply createOutputDirectory_effect in Hdir as (Hpos2 & _ & _).
  cbn [set_pos w_pos] in Hpos2.
  apply bind_ret_inv in Hrun as (pacHeader & w3 & Hhdr & Hrun).
  assert (pacHeader = pread fd 0 sizeof_PacHeader) as ->.
  { unfold readPacHeader, sys_read in Hhdr.
    cbv beta iota zeta delta [bind emit exit ret log set_pos fst snd] in Hhdr.
    match type of Hhdr with
    | context [if negb (?a =? ?b) then _ else _] => destruct (Z.eqb_spec a b) as [Hgot|]
    end; cbn [negb] in Hhdr; [|discriminate].
    injection Hhdr as <- _. rewrite Hgot, Hpos2. reflexivity. }
  apply bind_ret_inv in Hrun as (firmwareName & w4 & _ & Hrun).
  apply bind_ret_inv in Hrun as ([] & w5 & _ & Hrun).
  apply bind_ret_inv in Hrun as (start & w6 & Hstart & Hrun).
  apply defined_ret_inv in Hstart as [Hstart _].
  apply bind_ret_inv in Hrun as (count & w7 & Hcount & Hrun).
  apply defined_ret_inv in Hcount as [Hcount _].
  apply bind_ret_inv in Hrun as (ok & w8 & Hmalloc & Hrun).
  unfold sys_malloc in Hmalloc. injection Hmalloc as <- <-.
  pose proof (load_i32_range _ _ _ Hcount) as Hrange.
  assert (0 <= count) as Hnonneg.
  { destruct (Z.le_gt_cases 0 count) as [|Hneg]; [assumption|].
    rewrite negative_count_allocation in Hrun by lia. discriminate. }
  match type of Hrun with
  | (if negb ?b then _ else _) _ = _ => destruct b; cbn [negb] in Hrun
  end; [|discriminate].
  apply bind_ret_inv in Hrun as (headers & w9 & Hread & Hrun).
  apply readPartitionHeaders_is_walk in Hread as [-> _];
    [|pose proof (u32_range start); lia].
  apply bind_ret_inv in Hrun as ([] & w10 & Hextract & Hrun).
  cbv beta iota zeta delta [bind emit sys_close ret log] in Hrun.
  injection Hrun as <- <-.
  split; [reflexivity|].
  exists fd, start, count, w9, w10. repeat (split; [assumption|]). reflexivity.
Qed.

(** X20: the size check of [main] compares the size converted to [int]:
    every container whose size modulo 2^32 is below [sizeof(PacHeader)] is
    rejected as "not a valid firmware" with the file system untouched,
    which includes containers of 4 GiB plus a few bytes. *)
Theorem main_size_check_uses_low_bits prog path out rest f w :
  w_fs w !! path = Some (Reg f) ->
  fsize f mod two32 < sizeof_PacHeader ->
  exists w',
    main (prog :: "-e"%string :: path :: "-o"%string :: out :: rest) w
      = (Exit EXIT_FAILURE, w') /\
    w_fs w' = w_fs w /\
    w_trace w' = w_trace w ++
      [EFprintf_stderr "File %s is not a valid firmware\n" [PStr path]; EClose].
Proof.
  intros Hfile Hlow.
  pose proof (Z.mod_pos_bound (fsize f) two32 ltac:(unfold two32; lia)) as Hm.
  unfold sizeof_PacHeader in Hlow.
  rewrite main_extract. unfold extract_command. unfold arg. cbn [nth].
  unfold bind at 1. rewrite (openFirmwareFile_run path f w Hfile).
  assert (usize (i32 (fsize f)) = fsize f mod two32) as ->.
  { unfold i32. fold two32.
    destruct (Z.ltb_spec (fsize f mod two32) 2147483648); [|lia].
    apply usize_small. unfold two64, two32 in *. lia. }
  replace (fsize f mod two32 <? sizeof_PacHeader) with true
    by (symmetry; apply Z.ltb_lt; unfold sizeof_PacHeader; lia).
  cbv beta iota zeta delta [bind emit sys_close exit log set_pos].
  cbn [w_fs w_pos w_free w_heap w_trace].
  eexists. split; [reflexivity|]. cbn. split; [reflexivity|].
  rewrite <- app_assoc. reflexivity.
Qed.

(** ** A plain directory name *)

Lemma createOutputDirectory_loop_slash_free rest : forall done w,
  slash_free rest = true ->
  createOutputDirectory_loop done rest w = (Ret tt, w).
Proof.
  induction rest as [|c rest IH]; intros done w Hfree; cbn in *; [reflexivity|].
  apply andb_true_iff in Hfree as [Hc Hrest].
  apply negb_true_iff in Hc. rewrite Hc. unfold bind, ret. cbn.
  apply IH. assumption.
Qed.

Lemma dirname_rev_none l :
  Forall (fun c => Ascii.eqb c slash = false) l -> dirname_rev l = None.
Proof.
  induction 1 as [|c l Hc _ IH]; cbn; [reflexivity|]. rewrite Hc. exact IH.
Qed.

Lemma slash_free_chars s :
  slash_free s = true ->
  Forall (fun c => Ascii.eqb c slash = false) (list_ascii_of_string s).
Proof.
  induction s as [|c s IH]; cbn; intros Hfree; [constructor|].
  apply andb_true_iff in Hfree as [Hc Hrest].
  constructor; [apply negb_true_iff; assumption|apply IH; assumption].
Qed.

Lemma parent_exists_slash_free fs path :
  slash_free path = true -> parent_exists fs path = true.
Proof.
  intros Hfree. unfold parent_exists, dirname.
  rewrite dirname_rev_none; [reflexivity|].
  apply Forall_rev. apply slash_free_chars. assumption.
Qed.

(** X21: for a plain directory name (not empty, without slash, and
    neither [.] nor [..], which always exist), [createOutputDirectory]
    returns without any change when the name exists, and makes exactly
    that one directory when it does not. *)
Theorem createOutputDirectory_plain_name path w :
  slash_free path = true ->
  plain_component path = true ->
  (String.length path < 768)%nat ->
  (is_Some (w_fs w !! path) -> createOutputDirectory path w = (Ret tt, w)) /\
  (w_fs w !! path = None ->
   createOutputDirectory path w
   = (Ret tt, log (EMkdir path) (set_fs (<[path := Dir]> (w_fs w)) w))).
Proof.
  intros Hfree Hplain Hlen.
  assert (path <> ""%string) as Hne.
  { intros ->. discriminate. }
  assert (createOutputDirectory path w = ensure_directory path w) as ->.
  { unfold createOutputDirectory.
    destruct (Z.leb_spec 768 (Z.of_nat (String.length path))) as [|_]; [lia|].
    unfold bind. rewrite (createOutputDirectory_loop_slash_free path "" w Hfree).
    reflexivity. }
  split.
  - intros Hsome. apply ensure_directory_present; assumption.
  - intros Hnone. unfold ensure_directory, bind, sys_access, sys_mkdir.
    destruct (String.eqb_spec path "") as [|_]; [contradiction|]. cbn [negb andb].
    rewrite bool_decide_eq_false_2 by (rewrite Hnone; apply is_Some_None).
    rewrite bool_decide_eq_true_2 by assumption.
    rewrite parent_exists_slash_free by assumption. reflexivity.
Qed.

(** ** Instances *)

Lemma getString_decodes_to_first_zero_witness :
  getString (Some (boot_units ++ 0 :: [7])) = Some ((low_byte <$> boot_units) ++ [0]) /\
  (Forall (fun c => 0 < c < 256) boot_units ->
   getString (Some (boot_units ++ 0 :: [7])) = Some (boot_units ++ [0])).
Proof.
  apply (getString_decodes_to_first_zero boot_units [7]).
  repeat constructor; discriminate.
Defined.

Lemma main_usage_error_witness :
  main ["pacextractor"; "-v"]%string quiet_world
  = (Exit EXIT_FAILURE, logs usage_events quiet_world).
Proof.
  apply (main_usage_error ["pacextractor"; "-v"]%string quiet_world).
  left. simpl. lia.
Defined.

Lemma main_help_and_version_witness :
  main ["pacextractor"; "-v"; "a"; "b"; "c"]%string quiet_world
  = (Exit EXIT_SUCCESS,
     logs [EPrintf "pacextractor version %s\n" [PStr "1.1.0"]] quiet_world).
Proof.
  apply (main_help_and_version ["pacextractor"; "-v"; "a"; "b"; "c"]%string quiet_world).
  - simpl. lia.
  - reflexivity.
Defined.

Lemma main_missing_container_witness :
  main one_partition_argv quiet_world
  = (Exit EXIT_FAILURE, logs [EPerror "fw.pac"] quiet_world).
Proof.
  apply (main_missing_container one_partition_argv quiet_world).
  - simpl. lia.
  - reflexivity.
  - reflexivity.
  - reflexivity.
Defined.

Lemma createOutputDirectory_rooted_path_fails_witness :
  createOutputDirectory "/tmp/out" quiet_world
  = (Exit EXIT_FAILURE,
     logs [EMkdir ""; EPerror "Failed to create output directory"] quiet_world).
Proof.
  apply (createOutputDirectory_rooted_path_fails "/tmp/out" quiet_world).
  - simpl. lia.
  - right. exists "tmp/out"%string. reflexivity.
Defined.

Lemma createOutputDirectory_only_adds_directories_witness :
  w_fs quiet_world ⊆ w_fs (snd (createOutputDirectory "out/fw" quiet_world)) /\
  (forall q nd,
     w_fs (snd (createOutputDirectory "out/fw" quiet_world)) !! q = Some nd ->
     w_fs quiet_world !! q = Some nd \/ nd = Dir) /\
  (fst (createOutputDirectory "out/fw" quiet_world) = Ret tt ->
   is_Some (w_fs (snd (createOutputDirectory "out/fw" quiet_world)) !! "out/fw"%string)).
Proof.
  apply (createOutputDirectory_only_adds_directories "out/fw" quiet_world).
  destruct (createOutputDirectory "out/fw" quiet_world). reflexivity.
Defined.

Lemma createOutputDirectory_idempotent_witness :
  createOutputDirectory "out/fw" (snd (createOutputDirectory "out/fw" quiet_world))
  = (Ret tt, snd (createOutputDirectory "out/fw" quiet_world)).
Proof.
  apply (createOutputDirectory_idempotent "out/fw" quiet_world
           (snd (createOutputDirectory "out/fw" quiet_world))).
  - vm_compute. reflexivity.
  - reflexivity.
Defined.

Lemma createOutputDirectory_plain_name_witness :
  (is_Some (w_fs quiet_world !! "out"%string) ->
   createOutputDirectory "out" quiet_world = (Ret tt, quiet_world)) /\
  (w_fs quiet_world !! "out"%string = None ->
   createOutputDirectory "out" quiet_world
   = (Ret tt, log (EMkdir "out") (set_fs (<["out"%string := Dir]> (w_fs quiet_world))
                                    quiet_world))).
Proof.
  apply (createOutputDirectory_plain_name "out" quiet_world).
  - reflexivity.
  - reflexivity.
  - simpl. lia.
Defined.

Lemma readPartitionHeader_truncated_witness :
  exists w',
    readPartitionHeader stub_container 6 quiet_world = (Exit EXIT_FAILURE, w') /\
    w_fs w' = w_fs quiet_world.
Proof.
  apply (readPartitionHeader_truncated stub_container 6 quiet_world).
  - lia.
  - left. vm_compute. reflexivity.
Defined.

Lemma readPartitionHeader_length_field_witness :
  exists length,
    load_u32 (pread two_record_container 0 4) 0 = Some length /\
    Z.of_nat (List.length (pread two_record_container 0 1568)) = length /\
    (4 <= length ->
     load_u32 (pread two_record_container 0 1568) off_length = Some length) /\
    (length < 4 -> load_u32 (pread two_record_container 0 1568) off_length = None).
Proof.
  apply (readPartitionHeader_length_field two_record_container 0 quiet_world
           (pread two_record_container 0 1568) 1568
           (snd (readPartitionHeader two_record_container 0 quiet_world))).
  - lia.
  - vm_compute. reflexivity.
Defined.

Lemma readPartitionHeaders_walk_witness :
  [pread two_record_container 0 1568; pread two_record_container 1568 1568]
    = walk 2 two_record_container 0 /\
  length [pread two_record_container 0 1568; pread two_record_container 1568 1568]
    = 2%nat /\
  w_fs (snd (readPartitionHeaders 2 two_record_container 0 quiet_world))
    = w_fs quiet_world.
Proof.
  apply (readPartitionHeaders_walk 2 two_record_container 0 quiet_world
           [pread two_record_container 0 1568; pread two_record_container 1568 1568]
           (snd (readPartitionHeaders 2 two_record_container 0 quiet_world))).
  - lia.
  - vm_compute. reflexivity.
Defined.

Lemma extractPartition_touches_only_destination_witness :
  w_fs sample_world_after !! "out"%string = w_fs sample_world !! "out"%string.
Proof.
  apply (extractPartition_touches_only_destination sample_container sample_record
           "out" "a" sample_world
           (fst (extractPartition sample_container sample_record "out" sample_world))
           sample_world_after "out").
  - vm_compute. reflexivity.
  - vm_compute. reflexivity.
  - vm_compute. reflexivity.
  - vm_compute. discriminate.
  - vm_compute. reflexivity.
Defined.

Lemma extractPartition_io_within_buffer_witness :
  exists evs,
    w_trace sample_world_after = w_trace sample_world ++ evs /\
    Forall (fun r => 0 < fst r <= BUFFER_SIZE /\ snd r <= fst r) (reads evs) /\
    Forall (fun r => 0 < fst r <= BUFFER_SIZE /\ snd r <= fst r) (writes evs) /\
    Forall (fun r => 0 < fst r <= snd r) (reports evs).
Proof.
  apply (extractPartition_io_within_buffer sample_container sample_record "out"
           sample_world
           (fst (extractPartition sample_container sample_record "out" sample_world))
           sample_world_after).
  vm_compute. reflexivity.
Defined.

Lemma extractPartition_chunk_count_witness :
  exists evs,
    w_trace sample_world_after = w_trace sample_world ++ evs /\
    Z.of_nat (length (reads evs)) = chunk_count 5 /\
    Z.of_nat (length (writes evs)) = chunk_count 5 /\
    Z.of_nat (length (reports evs)) = chunk_count 5 /\
    total_bytes (snd <$> writes evs) = 5.
Proof.
  apply (extractPartition_chunk_count sample_container sample_record "out"
           sample_world sample_world_after 5).
  - vm_compute. reflexivity.
  - vm_compute. reflexivity.
Defined.

Lemma extractPartition_twice_witness :
  w_fs (snd (extractPartition sample_container sample_record "out" sample_world_after))
  = w_fs sample_world_after.
Proof.
  apply (extractPartition_twice sample_container sample_record "out"
           sample_world sample_world_after
           (snd (extractPartition sample_container sample_record "out"
                   sample_world_after))).
  - vm_compute. reflexivity.
  - vm_compute. reflexivity.
Defined.

Lemma extractPartition_destination_directory_witness :
  exists w',
    extractPartition sample_container sample_record "out" occupied_world
      = (Exit EXIT_FAILURE, w') /\
    w_fs w' = w_fs occupied_world /\
    w_trace w' = w_trace occupied_world ++
      [ELseek 2; ERemove (outputFilePath "out" "a");
       EPerror "Error removing existing output file"].
Proof.
  apply (extractPartition_destination_directory sample_container sample_record "out"
           occupied_world 5 2 "a").
  - vm_compute. reflexivity.
  - lia.
  - vm_compute. reflexivity.
  - vm_compute. reflexivity.
  - vm_compute. discriminate.
  - vm_compute. reflexivity.
  - vm_compute. reflexivity.
Defined.

Lemma main_exit_status_witness :
  fst (main one_partition_argv one_partition_world) = Ret EXIT_SUCCESS \/
  fst (main one_partition_argv one_partition_world) = Exit EXIT_SUCCESS \/
  fst (main one_partition_argv one_partition_world) = Exit EXIT_FAILURE \/
  fst (main one_partition_argv one_partition_world) = Undef.
Proof.
  apply (main_exit_status one_partition_argv one_partition_world
           (fst (main one_partition_argv one_partition_world))
           (snd (main one_partition_argv one_partition_world))).
  destruct (main one_partition_argv one_partition_world). reflexivity.
Defined.

Lemma header_read_after_size_check_witness :
  sizeof_PacHeader <= fsize one_partition_container /\
  readPacHeader one_partition_container quiet_world
  = (Ret (pread one_partition_container 0 sizeof_PacHeader),
     log (ERead sizeof_PacHeader sizeof_PacHeader) (set_pos sizeof_PacHeader quiet_world)).
Proof.
  apply (header_read_after_size_check one_partition_container quiet_world).
  - vm_compute. reflexivity.
  - reflexivity.
Defined.

Lemma main_success_extracts_walk_witness :
  EXIT_SUCCESS = EXIT_SUCCESS /\
  exists fd partitionsListStart partitionCount w1 w2,
    w_fs one_partition_world !! arg one_partition_argv 2 = Some (Reg fd) /\
    load_i32 (pread fd 0 sizeof_PacHeader) off_partitionsListStart
      = Some partitionsListStart /\
    load_i32 (pread fd 0 sizeof_PacHeader) off_partitionCount = Some partitionCount /\
    0 <= partitionCount /\
    extractPartitions fd
      (walk (Z.to_nat partitionCount) fd (u32 partitionsListStart))
      (arg one_partition_argv 4) w1 = (Ret tt, w2) /\
    snd (main one_partition_argv one_partition_world) = log EClose w2.
Proof.
  apply (main_success_extracts_walk one_partition_argv one_partition_world
           EXIT_SUCCESS (snd (main one_partition_argv one_partition_world))).
  vm_compute. reflexivity.
Defined.

Lemma main_size_check_uses_low_bits_witness :
  exists w',
    main ("pacextractor" :: "-e" :: "fw.pac" :: "-o" :: "out" :: [])%string oversize_world
      = (Exit EXIT_FAILURE, w') /\
    w_fs w' = w_fs oversize_world /\
    w_trace w' = w_trace oversize_world ++
      [EFprintf_stderr "File %s is not a valid firmware\n" [PStr "fw.pac"]; EClose].
Proof.
  apply (main_size_check_uses_low_bits "pacextractor" "fw.pac" "out" []
           oversize_container oversize_world).
  - reflexivity.
  - vm_compute. reflexivity.
Defined.

(** The run of [main] on the one-partition container, evaluated: the
    output directory is made, the header and the record are read, and
    [out/b.img] receives the five payload bytes. *)
Example one_partition_run :
  let r := main one_partition_argv one_partition_world in
  fst r = Ret EXIT_SUCCESS /\
  w_fs (snd r) !! "out"%string = Some Dir /\
  w_fs (snd r) !! "out/b.img"%string = Some (Reg (Bytes [1; 2; 3; 4; 5])) /\
  w_trace (snd r) =
    [EMkdir "out"; ERead 1220 1220; EPrintf "Firmware name: %s\n" [PStr ""];
     ELseek 1220; ERead 4 4; ELseek 1220; ERead 1568 1568;
     EPrintf "Partition name: %s\n\twith file name: %s\n\twith size %u\n"
       [PStr "boot"; PStr "b.img"; PUint 5];
     ELseek 2788; ERemove "out/b.img"; ECreat "out/b.img";
     EPrintf "Extracting to %s\n" [PStr "out/b.img"];
     ERead 5 5; EWrite 5 5; EProgress 5 5; EPrintf "\n" []; EClose; EClose].
Proof. vm_compute. repeat split. Qed.

(** An instance of the decoding rule: the file name made of the units 'A',
    0x0100, 'B' decodes to "A". *)
Lemma decode_field_defined_iff_witness :
  decode_field nul_name_record off_fileName 512 = Some "A"%string.
Proof.
  apply (proj2 (decode_field_defined_iff nul_name_record off_fileName 512 "A")).
  exists [65; 256; 66], (drop 4 (field_units nul_name_record off_fileName)).
  split; [vm_compute; reflexivity|].
  split; [repeat constructor; discriminate|].
  split; [vm_compute; reflexivity|vm_compute; reflexivity].
Defined.

(** The record with that file name is extracted to [out/A]. *)
Example interior_nul_extraction :
  let r := extractPartition sample_container nul_name_record "out" sample_world in
  fst r = Ret tt /\
  w_fs (snd r) !! "out/A"%string = Some (Reg (Bytes [12; 13; 14; 15; 16])).
Proof. vm_compute. split; reflexivity. Qed.
